(** * update.py: the JetBrains build-number tables, embedded in Rocq

    The script fetches a product catalogue, keeps the products whose code
    is a member of [IDECode], and derives three artefacts from it: a sorted
    code/name index, a version-by-product table of build numbers, and a
    JSON object grouping the releases by product.

    The embedding is shallow.  Python values become Rocq values, an
    exception becomes the [Err] branch of [result], a generator becomes an
    [Iterator] (a list that may end in a raised exception), and a [dict]
    becomes an association list in insertion order, because the script
    depends on that order twice: [sorted] is stable over [table.items()],
    and [json.dump] writes the keys in insertion order. *)

From Stdlib Require Import String Ascii NArith Lia.
From stdpp Require Import base option list strings sorting.

Open Scope string_scope.
Open Scope list_scope.

(** ** Exceptions *)

Inductive exn : Type :=
| KeyError (key : string)
| InvalidVersion (version : string).

Inductive result (A : Type) : Type :=
| Ok (a : A)
| Err (e : exn).

Arguments Ok {A} a.
Arguments Err {A} e.

#[global] Instance result_ret : MRet result := fun A a => Ok a.

#[global] Instance result_bind : MBind result := fun A B f m =>
  match m with
  | Ok a => f a
  | Err e => Err e
  end.

#[global] Instance result_fmap : FMap result := fun A B f m =>
  match m with
  | Ok a => Ok (f a)
  | Err e => Err e
  end.

(** [mapM] specialised to [result]: the calls are made left to right and
    the first exception ends the traversal. *)
Fixpoint traverse {A B : Type} (f : A → result B) (l : list A) : result (list B) :=
  match l with
  | [] => Ok []
  | x :: l' => y ← f x; ys ← traverse f l'; Ok (y :: ys)
  end.

(** ** Python dicts: association lists in insertion order *)

Section Dict.
Context {K V : Type} `{EqDecision K}.

(** [d.get(k)] *)
Fixpoint dict_get (k : K) (d : list (K * V)) : option V :=
  match d with
  | [] => None
  | (k', v) :: d' => if decide (k = k') then Some v else dict_get k d'
  end.

(** [k in d] *)
Definition dict_contains (k : K) (d : list (K * V)) : bool :=
  bool_decide (is_Some (dict_get k d)).

(** [d[k] = v]: an existing key keeps its position, a new key goes last. *)
Fixpoint dict_set (k : K) (v : V) (d : list (K * V)) : list (K * V) :=
  match d with
  | [] => [(k, v)]
  | (k', v') :: d' =>
      if decide (k = k') then (k', v) :: d' else (k', v') :: dict_set k v d'
  end.

(** [dict(items)] *)
Definition dict_of_items (items : list (K * V)) : list (K * V) :=
  foldl (fun d item => dict_set item.1 item.2 d) [] items.
End Dict.

(** [d[k]] *)
Definition dict_getitem {V : Type} (k : string) (d : list (string * V)) : result V :=
  match dict_get k d with
  | Some v => Ok v
  | None => Err (KeyError k)
  end.

(** ** [sorted] and [list.sort]

    Both are documented as stable, also under [reverse = True].  For a key
    order that is a strict weak order there is exactly one stable sorted
    arrangement of a list, so the insertion sort below, which is sorted
    ([sort_keyed_Sorted]), a rearrangement ([sort_keyed_perm]) and stable
    ([sort_keyed_stable]), returns what the built-in returns.  As in
    CPython, every key is computed first, in list order, and an exception
    raised by the key function propagates before anything is rearranged. *)

Section Sorting.
Context {A K : Type}.

(** [insort before x l] puts [x], which stood before the elements of [l]
    in the input, into the sorted list [l]: an element [y] of [l] stays on
    the left of [x] only where [before] holds of the key of [y] and the
    key of [x], so equal keys keep their input order. *)
Fixpoint insort (before : K → K → bool) (x : K * A) (l : list (K * A))
  : list (K * A) :=
  match l with
  | [] => [x]
  | y :: l' => if before y.1 x.1 then y :: insort before x l' else x :: y :: l'
  end.

Definition sort_keyed (before : K → K → bool) (l : list (K * A)) : list (K * A) :=
  foldr (insort before) [] l.

Definition sorted (lt : K → K → bool) (key : A → result K) (reverse : bool)
    (l : list A) : result (list A) :=
  keys ← traverse key l;
  Ok ((sort_keyed (if reverse then flip lt else lt) (zip keys l)).*2).
End Sorting.

(** ** Generators *)

Inductive Iterator (A : Type) : Type :=
| StopIteration
| Yield (a : A) (rest : Iterator A)
| Raise (e : exn).

Arguments StopIteration {A}.
Arguments Yield {A} a rest.
Arguments Raise {A} e.

Fixpoint iter {A : Type} (l : list A) : Iterator A :=
  match l with
  | [] => StopIteration
  | a :: l' => Yield a (iter l')
  end.

(** The items a generator yields before it stops or raises. *)
Fixpoint yielded {A : Type} (it : Iterator A) : list A :=
  match it with
  | Yield a rest => a :: yielded rest
  | _ => []
  end.

(** The exception that ends the generator, if one does. *)
Fixpoint raised {A : Type} (it : Iterator A) : option exn :=
  match it with
  | StopIteration => None
  | Yield _ rest => raised rest
  | Raise e => Some e
  end.

(** [for a in it: s = body(s, a)] *)
Fixpoint for_each {A S : Type} (it : Iterator A) (body : S → A → result S) (s : S)
  : result S :=
  match it with
  | StopIteration => Ok s
  | Yield a rest => s' ← body s a; for_each rest body s'
  | Raise e => Err e
  end.

(** ** The identity registry *)

Module IDECode.
Inductive t : Type :=
| CL | GO | IIC | IIU | PCC | PCP | PS | RC | RD | RM | RR | RS | WS.

#[global] Instance eq_dec : EqDecision t.
Proof. solve_decision. Defined.

(** [member.name] *)
Definition name (member : t) : string :=
  match member with
  | CL => "CL" | GO => "GO" | IIC => "IIC" | IIU => "IIU"
  | PCC => "PCC" | PCP => "PCP" | PS => "PS" | RC => "RC"
  | RD => "RD" | RM => "RM" | RR => "RR" | RS => "RS" | WS => "WS"
  end.

(** [member.value] *)
Definition value (member : t) : string :=
  match member with
  | CL => "CLion"
  | GO => "GoLand"
  | IIC => "IntelliJ IDEA Community Edition"
  | IIU => "IntelliJ IDEA Ultimate"
  | PCC => "PyCharm Community Edition"
  | PCP => "PyCharm Professional Edition"
  | PS => "PhpStorm"
  | RC => "ReSharper C++"
  | RD => "Rider"
  | RM => "RubyMine"
  | RR => "RustRover"
  | RS => "ReSharper"
  | WS => "WebStorm"
  end.

(** The members in declaration order. *)
Definition members : list t :=
  [CL; GO; IIC; IIU; PCC; PCP; PS; RC; RD; RM; RR; RS; WS].

(** [IDECode.__members__]: member name to member. *)
Definition __members__ : list (string * t) :=
  (fun member => (name member, member)) <$> members.

(** [IDECode[member]] *)
Definition __getitem__ (member : string) : result t :=
  dict_getitem member __members__.

(** [IDECode.get(member)]: the [try] catches [KeyError] and nothing else. *)
Definition get (member : string) : result (option t) :=
  match __getitem__ member with
  | Ok found => Ok (Some found)
  | Err (KeyError _) => Ok None
  | Err e => Err e
  end.
End IDECode.

(** ** The release model *)

Abbreviation RawVersion := string (only parsing).
Abbreviation BuildNumber := string (only parsing).

Module datetime.
Record date : Type := { year : N; month : N; day : N }.

Definition digit (n : N) : ascii := ascii_of_N (48 + n mod 10).

(** [date.isoformat()], that is [%04d-%02d-%02d]. *)
Definition isoformat (d : date) : string :=
  String (digit (year d / 1000)) (String (digit (year d / 100))
    (String (digit (year d / 10)) (String (digit (year d))
    (String "-" (String (digit (month d / 10)) (String (digit (month d))
    (String "-" (String (digit (day d / 10)) (String (digit (day d)) ""))))))))).
(** The range of a [datetime.date]. *)
Definition in_range (d : date) : Prop :=
  (1 ≤ year d ≤ 9999 ∧ 1 ≤ month d ≤ 12 ∧ 1 ≤ day d ≤ 31)%N.
End datetime.

Record Release : Type := {
  version : RawVersion;
  build : option BuildNumber;
  date : datetime.date
}.

Record Product : Type := {
  code : string;
  name : string;
  releases : list Release
}.

Module IDEList.
(** The inner [for release in ide.releases]: the tuple, and with it the
    lookup [IDECode[ide.code]], is evaluated once per release. *)
Fixpoint of_product (ide : Product) (rs : list Release)
    (rest : Iterator (IDECode.t * Release)) : Iterator (IDECode.t * Release) :=
  match rs with
  | [] => rest
  | release :: rs' =>
      match IDECode.__getitem__ (code ide) with
      | Ok member => Yield (member, release) (of_product ide rs' rest)
      | Err e => Raise e
      end
  end.

(** The [releases] property: the outer [for ide in self]. *)
Definition releases (self : list Product) : Iterator (IDECode.t * Release) :=
  foldr (fun ide rest => of_product ide (releases ide) rest) StopIteration self.
End IDEList.

(** ** [packaging.version.Version] *)

Module packaging.
(** Modelled from the spec: [packaging.version.Version], a third-party
    class the script imports and that is not part of the repository.  The
    model covers the dotted-numeric strings of the spec ([2024.1.3]): the
    string is cut at the dots, every segment has to be a non-empty run of
    decimal digits and is read as an integer, and two versions compare
    segment by segment as integers.  As in the library's [_cmpkey], zero
    segments at the end do not count ([1.0] equals [1]).  Every other
    string is rejected; the library raises [InvalidVersion] with the
    message [Invalid version: '<string>']. *)
Record Version : Type := { release : list N }.

Definition digit_value (a : ascii) : option N :=
  let n := N_of_ascii a in
  if ((48 <=? n) && (n <=? 57))%N then Some (n - 48)%N else None.

Fixpoint int_from (acc : N) (s : string) : option N :=
  match s with
  | "" => Some acc
  | String a s' => d ← digit_value a; int_from (10 * acc + d)%N s'
  end.

(** [int(s)] on a run of digits. *)
Definition int (s : string) : option N :=
  match s with
  | "" => None
  | _ => int_from 0 s
  end.

(** [s.split(".")] *)
Fixpoint split (s : string) : list string :=
  match s with
  | "" => [""]
  | String a s' =>
      if decide (a = "."%char) then "" :: split s'
      else match split s' with
           | [] => [String a ""]
           | segment :: segments => String a segment :: segments
           end
  end.

Definition parse (s : string) : option Version :=
  segments ← mapM int (split s); Some {| release := segments |}.

(** The release part of [_cmpkey]: the segments without the zeros at the
    end. *)
Fixpoint strip (segments : list N) : list N :=
  match segments with
  | [] => []
  | n :: segments' =>
      match strip segments' with
      | [] => if (n =? 0)%N then [] else [n]
      | kept => n :: kept
      end
  end.

Definition _key (v : Version) : list N := strip (release v).

(** [<] on tuples of integers. *)
Fixpoint tuple_lt (a b : list N) : bool :=
  match a, b with
  | _, [] => false
  | [], _ :: _ => true
  | x :: a', y :: b' =>
      if (x <? y)%N then true else if (x =? y)%N then tuple_lt a' b' else false
  end.

(** [Version.__lt__] *)
Definition lt (a b : Version) : bool := tuple_lt (_key a) (_key b).
End packaging.

(** ** The aggregator *)

Abbreviation Row := (list (IDECode.t * option string)) (only parsing).
Abbreviation Table := (list (string * list (IDECode.t * option string))) (only parsing).

(** The part of a [pandas.DataFrame] the script fills in. *)
Record DataFrame : Type := {
  columns : list string;
  rows : list (list (option string))
}.

Section Aggregator.
Context {Key : Type}.
(** The version parser and the order of its results; [None] stands for
    the parser's [InvalidVersion]. *)
Context (Version : string → option Key) (lt : Key → Key → bool).

(** [lambda item: Version(item[0])] *)
Definition version_key (item : string * list (IDECode.t * option string)) : result Key :=
  match Version item.1 with
  | Some key => Ok key
  | None => Err (InvalidVersion item.1)
  end.

(** The body of the loop over [ides.releases]. *)
Definition collect (table : Table) (item : IDECode.t * Release) : result Table :=
  let '(code, release) := item in
  match build release with
  | None => Ok table
  | Some _ =>
      let table :=
        if dict_contains (version release) table then table
        else dict_set (version release) [] table in
      row ← dict_getitem (version release) table;
      Ok (dict_set (version release) (dict_set code (build release) row) table)
  end.

Definition _map_version_to_build_numbers (ides : list Product) : result Table :=
  table ← for_each (IDEList.releases ides) collect [];
  sorted_items ← sorted lt version_key true table;
  Ok (dict_of_items sorted_items).

(** ** The table view *)

Definition _construct_ide_table (ides : list Product) : result DataFrame :=
  version_to_build_numbers ← _map_version_to_build_numbers ides;
  Ok {| columns := "Version" :: IDECode.__members__.*1;
        rows := (fun item : string * list (IDECode.t * option string) =>
                   Some item.1
                   :: ((fun code => mjoin (dict_get code item.2)) <$> IDECode.__members__.*2))
                <$> version_to_build_numbers |}.
End Aggregator.

Arguments collect : simpl never.

(** ** JSON values *)

#[warnings="-register-all"]
Inductive json : Type :=
| JNull
| JString (s : string)
| JArray (items : list json)
| JObject (members : list (string * json)).

(** [json.loads(release.model_dump_json())]: the fields in declaration
    order, the date in ISO format. *)
Definition release_as_json (release : Release) : json :=
  JObject [("version", JString (version release));
           ("build", match build release with
                     | Some number => JString number
                     | None => JNull
                     end);
           ("date", JString (datetime.isoformat (date release)))].

(** ** The grouped view *)

(** The body of the loop of [_update_json]; [code_to_releases] is a
    [defaultdict(list)], so a missing key is first bound to [[]]. *)
Definition append_release (code_to_releases : list (string * list json))
    (item : IDECode.t * Release) : result (list (string * list json)) :=
  let '(code, release) := item in
  let release_as_json := release_as_json release in
  let code_to_releases :=
    if dict_contains (IDECode.name code) code_to_releases then code_to_releases
    else dict_set (IDECode.name code) [] code_to_releases in
  entries ← dict_getitem (IDECode.name code) code_to_releases;
  Ok (dict_set (IDECode.name code) (entries ++ [release_as_json]) code_to_releases).

Arguments append_release : simpl never.

(** The value [_update_json] hands to [json.dump]. *)
Definition _update_json (ides : list Product) : result json :=
  code_to_releases ← for_each (IDEList.releases ides) append_release [];
  Ok (JObject (prod_map id JArray <$> code_to_releases)).

(** ** The code/name index *)

(** The value [_update_all_codes] hands to [json.dump]. *)
Definition _update_all_codes (products : list Product) : result json :=
  let codes_and_names :=
    (fun product => [("code", code product); ("name", name product)]) <$> products in
  codes_and_names ←
    sorted String.ltb (fun product => dict_getitem "code" product) false codes_and_names;
  Ok (JArray ((fun entry => JObject (prod_map id JString <$> entry)) <$> codes_and_names)).

(** ** The entry point *)

(** What a file holds: the value given to [json.dump], or the table that
    [to_markdown] renders under the legend of [build-numbers.md]. *)
Inductive content : Type :=
| JsonFile (value : json)
| MarkdownFile (table : DataFrame).

(** The list comprehension of [main]:
    [[product for product in products if IDECode.get(product.code) is not None]]. *)
Fixpoint known_ides (products : list Product) : result (list Product) :=
  match products with
  | [] => Ok []
  | product :: products' =>
      found ← IDECode.get (code product);
      ides ← known_ides products';
      Ok (if found is Some _ then product :: ides else ides)
  end.

(** An [_update_*] function computes its artefact and only then opens and
    writes its file; an exception on the way leaves the files as they are. *)
Definition write_artefact (path : string) (artefact : result content)
    (files : list (string * content)) : list (string * content) * option exn :=
  match artefact with
  | Ok written => (dict_set path written files, None)
  | Err e => (files, Some e)
  end.

Section Main.
Context {Key : Type} (Version : string → option Key) (lt : Key → Key → bool).

(** [main], from the fetched product list on: the files after the run and
    the exception that ended it, if any. *)
Definition main (products : list Product) (files : list (string * content))
  : list (string * content) * option exn :=
  match known_ides products with
  | Err e => (files, Some e)
  | Ok ides =>
      match write_artefact "all-product-codes.json"
              (JsonFile <$> _update_all_codes products) files with
      | (files, Some e) => (files, Some e)
      | (files, None) =>
          match write_artefact "build-numbers.md"
                  (MarkdownFile <$> _construct_ide_table Version lt ides) files with
          | (files, Some e) => (files, Some e)
          | (files, None) =>
              write_artefact "builds.json" (JsonFile <$> _update_json ides) files
          end
      end
  end.
End Main.

(** ** The legend of the table *)

(** Strings are byte strings here.  The three methods below are written
    for ASCII text, which the names and values of the registry are. *)

(** [a.isspace()] for an ASCII character: tab to carriage return, the
    four separators from file to unit, and the space. *)
Definition isspace (a : ascii) : bool :=
  let n := N_of_ascii a in
  (((9 <=? n) && (n <=? 13)) || ((28 <=? n) && (n <=? 31)) || (n =? 32))%N.

(** The word at the start of [s], empty when [s] starts with whitespace,
    and the words after it. *)
Fixpoint split_from (s : string) : string * list string :=
  match s with
  | "" => ("", [])
  | String a s' =>
      let '(word, words) := split_from s' in
      if isspace a
      then ("", match word with "" => words | _ => word :: words end)
      else (String a word, words)
  end.

(** [s.split()]: the words between runs of whitespace. *)
Definition str_split (s : string) : list string :=
  let '(word, words) := split_from s in
  match word with "" => words | _ => word :: words end.

(** [sep.join(words)] *)
Fixpoint str_join (sep : string) (words : list string) : string :=
  match words with
  | [] => ""
  | [word] => word
  | word :: words' => word +:+ sep +:+ str_join sep words'
  end.

(** Whether a string has a whitespace character. *)
Fixpoint has_space (s : string) : bool :=
  match s with
  | "" => false
  | String a s' => isspace a || has_space s'
  end.

(** The item of one member in the legend: the pass of the loop of
    [_table_notes] for the pair [(code, member)] of [__members__]. *)
Definition legend_item (code : string) (member : IDECode.t) : string :=
  let name := IDECode.value member in
  let item := "<b>" +:+ code +:+ "</b>: " +:+ name in
  str_join "&nbsp;" (str_split item).

Definition _table_notes : string :=
  str_join " | " ((fun entry : string * IDECode.t => legend_item entry.1 entry.2)
                  <$> IDECode.__members__).

(** ** Reading the artefacts *)

(** [table[version][code]], with [None] where one of the keys is missing. *)
Definition cell (table : Table) (v : string) (member : IDECode.t)
  : option (option string) :=
  row ← dict_get v table; dict_get member row.

(** The build identifier of the last release in [items] that is filed
    under [member], has version [v] and carries a build identifier. *)
Fixpoint last_build (items : list (IDECode.t * Release)) (v : string)
    (member : IDECode.t) : option string :=
  match items with
  | [] => None
  | (code, release) :: items' =>
      match last_build items' v member with
      | Some number => Some number
      | None =>
          if decide (code = member ∧ version release = v) then build release
          else None
      end
  end.

(** The releases of the products whose code names [member], in input
    order. *)
Definition releases_of (member : IDECode.t) (ides : list Product) : list Release :=
  filter (fun ide => code ide = IDECode.name member) ides ≫= releases.

(** The member of a JSON object, read as a string. *)
Definition json_string_member (key : string) (value : json) : option string :=
  match value with
  | JObject members =>
      match dict_get key members with
      | Some (JString s) => Some s
      | _ => None
      end
  | _ => None
  end.

(** The value of a decimal digit. *)
Definition digit_of (a : ascii) : option N :=
  let n := N_of_ascii a in
  if ((48 <=? n) && (n <=? 57))%N then Some (n - 48)%N else None.

(** Reading a date back from the form [YYYY-MM-DD]: ten characters, eight
    of them digits. *)
Definition date_of_iso (s : string) : option datetime.date :=
  match s with
  | String y1 (String y2 (String y3 (String y4 (String dash1
      (String m1 (String m2 (String dash2 (String d1 (String d2 ""))))))))) =>
      if decide (dash1 = "-"%char ∧ dash2 = "-"%char) then
        y1 ← digit_of y1; y2 ← digit_of y2; y3 ← digit_of y3; y4 ← digit_of y4;
        m1 ← digit_of m1; m2 ← digit_of m2; d1 ← digit_of d1; d2 ← digit_of d2;
        Some {| datetime.year := 1000 * y1 + 100 * y2 + 10 * y3 + y4;
                datetime.month := 10 * m1 + m2;
                datetime.day := 10 * d1 + d2 |}%N
      else None
  | _ => None
  end.

(** What the specification calls a release object: [entry] is the object
    of [release] when its members are [version], [build] and [date], in
    this order, and hold the version string of the release, its build
    identifier or [null] where it has none, and a string of ten characters
    that reads back as the date of the release (for a date in the range of
    [datetime.date]).  It is stated on the fields of the release and does
    not go through [release_as_json]. *)
Definition is_release_object (release : Release) (entry : json) : Prop :=
  ∃ iso,
    entry = JObject [("version", JString (version release));
                     ("build", match build release with
                               | Some number => JString number
                               | None => JNull
                               end);
                     ("date", JString iso)] ∧
    String.length iso = 10%nat ∧
    (datetime.in_range (date release) → date_of_iso iso = Some (date release)).

(** The pairs the [releases] property yields when every product has a
    known code. *)
Definition items_of (ides : list Product) : list (IDECode.t * Release) :=
  ides ≫= fun ide =>
    match IDECode.__getitem__ (code ide) with
    | Ok member => pair member <$> releases ide
    | Err _ => []
    end.

(** The shape of the matrix while it is built: distinct version keys, and
    in every row distinct codes, at least one cell, no absent cell. *)
Definition matrix_invariant (table : Table) : Prop :=
  NoDup table.*1 ∧
  Forall (fun item : string * list (IDECode.t * option string) =>
            item.2 ≠ [] ∧ NoDup item.2.*1 ∧ Forall (fun c => is_Some c.2) item.2)
         table.

(** The JSON objects of the releases in [items] filed under the member
    named [key], in the order of [items]. *)
Definition grouped (items : list (IDECode.t * Release)) (key : string) : list json :=
  (fun item : IDECode.t * Release => release_as_json item.2)
  <$> filter (fun item : IDECode.t * Release => IDECode.name item.1 = key) items.

(** The entry of a product in the code/name index. *)
Definition code_and_name (product : Product) : json :=
  JObject [("code", JString (code product)); ("name", JString (name product))].

(** A product is known when the lookup of [main] finds its code. *)
Definition known (ide : Product) : Prop :=
  ∃ member, IDECode.get (code ide) = Ok (Some member).

(** ** Sample inputs *)

Definition on (y m d : N) : datetime.date :=
  {| datetime.year := y; datetime.month := m; datetime.day := d |}.

(** The example of the specification: three releases, one of them without
    a build identifier. *)
Definition spec_example : list Product :=
  [ {| code := "IIU"; name := "IntelliJ IDEA Ultimate";
       releases := [ {| version := "2023.3"; build := Some "233.100";
                        date := on 2023 11 1 |} ] |};
    {| code := "IIC"; name := "IntelliJ IDEA Community Edition";
       releases := [ {| version := "2023.3"; build := None;
                        date := on 2023 11 1 |} ] |};
    {| code := "IIU"; name := "IntelliJ IDEA Ultimate";
       releases := [ {| version := "2024.1"; build := Some "241.1";
                        date := on 2024 2 1 |} ] |} ].

(** One version written in two ways. *)
Definition two_spellings : list Product :=
  [ {| code := "IIU"; name := "IntelliJ IDEA Ultimate";
       releases := [ {| version := "2024.1"; build := Some "241.1";
                        date := on 2024 4 4 |};
                     {| version := "2024.01"; build := Some "241.2";
                        date := on 2024 4 5 |} ] |} ].

(** The same product and version twice. *)
Definition repeated_release : list Product :=
  [ {| code := "IIU"; name := "IntelliJ IDEA Ultimate";
       releases := [ {| version := "2024.1"; build := Some "241.1";
                        date := on 2024 4 4 |};
                     {| version := "2024.1"; build := Some "241.2";
                        date := on 2024 4 5 |} ] |} ].

(** A version that is no dotted number. *)
Definition latest_release : list Product :=
  [ {| code := "IIU"; name := "IntelliJ IDEA Ultimate";
       releases := [ {| version := "2024.1"; build := Some "241.1";
                        date := on 2024 4 4 |};
                     {| version := "latest"; build := Some "251.1";
                        date := on 2025 4 5 |} ] |} ].

(** Two fetched products with one code. *)
Definition shared_code : list Product :=
  [ {| code := "AAA"; name := "First"; releases := [] |};
    {| code := "AAA"; name := "Second"; releases := [] |} ].

(** A product outside the registry that has no release, and one that has. *)
Definition unknown_without_releases : list Product :=
  [ {| code := "XX"; name := "Unknown"; releases := [] |} ].

Definition unknown_with_release : list Product :=
  [ {| code := "IIU"; name := "IntelliJ IDEA Ultimate";
       releases := [ {| version := "2024.1"; build := Some "241.1";
                        date := on 2024 4 4 |} ] |};
    {| code := "XX"; name := "Unknown";
       releases := [ {| version := "1.0"; build := None; date := on 2024 1 1 |} ] |};
    {| code := "GO"; name := "GoLand";
       releases := [ {| version := "2024.1"; build := Some "241.3";
                        date := on 2024 4 6 |} ] |} ].

(** Releases, none of which has a build identifier. *)
Definition no_builds : list Product :=
  [ {| code := "IIC"; name := "IntelliJ IDEA Community Edition";
       releases := [ {| version := "2023.3"; build := None;
                        date := on 2023 11 1 |};
                     {| version := "latest"; build := None;
                        date := on 2023 12 1 |} ] |} ].

(** The releases of [spec_example], with those of IIU in one product. *)
Definition spec_example_regrouped : list Product :=
  [ {| code := "IIU"; name := "IDEA Ultimate";
       releases := [ {| version := "2023.3"; build := Some "233.100";
                        date := on 2023 11 1 |};
                     {| version := "2024.1"; build := Some "241.1";
                        date := on 2024 2 1 |} ] |};
    {| code := "IIC"; name := "IDEA Community";
       releases := [ {| version := "2023.3"; build := None;
                        date := on 2023 11 1 |} ] |} ].

(** A fetch of known and unknown products, and the same fetch in another
    order. *)
Definition fetched : list Product :=
  [ {| code := "WS"; name := "WebStorm"; releases := [] |};
    {| code := "XX"; name := "Unknown"; releases := [] |};
    {| code := "CL"; name := "CLion"; releases := [] |} ].

Definition fetched_reordered : list Product :=
  [ {| code := "CL"; name := "CLion"; releases := [] |};
    {| code := "WS"; name := "WebStorm"; releases := [] |};
    {| code := "XX"; name := "Unknown"; releases := [] |} ].

(** The table of [spec_example]. *)
Definition spec_example_table : DataFrame :=
  {| columns := ["Version"; "CL"; "GO"; "IIC"; "IIU"; "PCC"; "PCP"; "PS"; "RC"; "RD";
                 "RM"; "RR"; "RS"; "WS"];
     rows := [ [Some "2024.1"; None; None; None; Some "241.1"; None; None; None;
                None; None; None; None; None; None];
               [Some "2023.3"; None; None; None; Some "233.100"; None; None; None;
                None; None; None; None; None; None] ] |}.

(** ** Tactics for the sample inputs *)

(** Decides a [Forall] over the releases of a sample input. *)
Ltac each_release := apply (bool_decide_unpack _); vm_compute; exact I.

(** Shows that the products of a sample input are all known. *)
Ltac all_known :=
  repeat (apply Forall_cons_2; [eexists; reflexivity|]); apply Forall_nil_2.

(** * Facts about dicts *)

Section DictFacts.
Context {K V : Type} `{EqDecision K}.
Implicit Types (k : K) (v : V) (d : list (K * V)).

Lemma dict_get_set k k' v d :
  dict_get k' (dict_set k v d) = if decide (k' = k) then Some v else dict_get k' d.
Proof.
  induction d as [|[k0 v0] d IH]; simpl.
  - by destruct (decide (k' = k)).
  - destruct (decide (k = k0)); simpl; destruct (decide (k' = k0)); simpl;
      rewrite ?IH; repeat case_decide; congruence.
Qed.

Lemma dict_get_set_eq k v d : dict_get k (dict_set k v d) = Some v.
Proof. rewrite dict_get_set, decide_True; done. Qed.

Lemma dict_get_set_ne k k' v d :
  k' ≠ k → dict_get k' (dict_set k v d) = dict_get k' d.
Proof. intros. rewrite dict_get_set, decide_False; done. Qed.

Lemma dict_get_None k d : dict_get k d = None ↔ k ∉ d.*1.
Proof.
  induction d as [|[k0 v0] d IH]; simpl.
  - split; [intros _; apply not_elem_of_nil | done].
  - rewrite not_elem_of_cons. case_decide; [|tauto].
    split; [done|]. by intros [? _].
Qed.

Lemma dict_get_Some_elem k v d : dict_get k d = Some v → (k, v) ∈ d.
Proof.
  induction d as [|[k0 v0] d IH]; simpl; [done|].
  case_decide; intros; simplify_eq.
  - apply elem_of_cons; auto.
  - apply elem_of_cons; auto.
Qed.

Lemma dict_get_elem_NoDup k v d : NoDup d.*1 → (k, v) ∈ d → dict_get k d = Some v.
Proof.
  induction d as [|[k0 v0] d IH]; simpl.
  - intros _ Hin. by apply elem_of_nil in Hin.
  - intros [Hk0 Hnd]%NoDup_cons [Heq|Hin]%elem_of_cons.
    + simplify_eq. by rewrite decide_True.
    + case_decide; [|auto]. subst k0. exfalso. apply Hk0.
      apply list_elem_of_fmap. by exists (k, v).
Qed.

Lemma dict_contains_true k d : dict_contains k d = true ↔ k ∈ d.*1.
Proof.
  unfold dict_contains. rewrite bool_decide_eq_true.
  destruct (dict_get k d) as [v|] eqn:Hget.
  - split; [intros _|by eauto].
    apply list_elem_of_fmap. exists (k, v). eauto using dict_get_Some_elem.
  - apply dict_get_None in Hget. split; [by intros [? ?]|done].
Qed.

Lemma dict_contains_false k d : dict_contains k d = false ↔ k ∉ d.*1.
Proof.
  rewrite <- dict_contains_true. destruct (dict_contains k d); naive_solver.
Qed.

Lemma dict_set_fresh k v d : k ∉ d.*1 → dict_set k v d = d ++ [(k, v)].
Proof.
  induction d as [|[k0 v0] d IH]; simpl; [done|].
  rewrite not_elem_of_cons. intros [Hne Hnin].
  rewrite decide_False by done. by rewrite IH.
Qed.

Lemma dict_set_set k v v' d : dict_set k v (dict_set k v' d) = dict_set k v d.
Proof.
  induction d as [|[k0 v0] d IH]; simpl.
  - by rewrite decide_True.
  - case_decide; simpl.
    + by rewrite decide_True.
    + rewrite decide_False by done. by rewrite IH.
Qed.

Lemma dict_set_keys_present k v d : k ∈ d.*1 → (dict_set k v d).*1 = d.*1.
Proof.
  induction d as [|[k0 v0] d IH]; simpl.
  - intros Hin. by apply elem_of_nil in Hin.
  - intros Hin. case_decide; csimpl; [done|].
    apply elem_of_cons in Hin as [|Hin]; [done|]. by rewrite IH.
Qed.

Lemma dict_set_NoDup k v d : NoDup d.*1 → NoDup (dict_set k v d).*1.
Proof.
  intros Hnd. destruct (decide (k ∈ d.*1)) as [Hin|Hnin].
  - by rewrite dict_set_keys_present.
  - rewrite dict_set_fresh by done. rewrite fmap_app. simpl.
    apply NoDup_app. split_and!; [done| |apply NoDup_singleton].
    intros x Hx Hx'. apply list_elem_of_singleton in Hx'. by subst.
Qed.

Lemma dict_set_elem k v d x : x ∈ dict_set k v d → x = (k, v) ∨ x ∈ d.
Proof.
  induction d as [|[k0 v0] d IH]; simpl.
  - intros Hx. apply list_elem_of_singleton in Hx. auto.
  - case_decide; intros [->|Hx]%elem_of_cons.
    + subst. auto.
    + right. apply elem_of_cons; auto.
    + right. apply elem_of_cons; auto.
    + destruct (IH Hx) as [->|Hin]; [auto|]. right. apply elem_of_cons; auto.
Qed.

Lemma dict_set_Forall (P : K * V → Prop) k v d :
  Forall P d → P (k, v) → Forall P (dict_set k v d).
Proof.
  intros Hd Hkv. apply Forall_forall. intros x [->|Hx]%dict_set_elem; [done|].
  by eapply Forall_forall in Hd.
Qed.

Lemma dict_get_perm k d d' : NoDup d.*1 → d ≡ₚ d' → dict_get k d = dict_get k d'.
Proof.
  intros Hnd Hperm.
  assert (NoDup d'.*1) as Hnd' by (by rewrite <- Hperm).
  destruct (dict_get k d) as [v|] eqn:Hget.
  - symmetry. apply dict_get_elem_NoDup; [done|].
    rewrite <- Hperm. by apply dict_get_Some_elem.
  - symmetry. apply dict_get_None. rewrite <- Hperm. by apply dict_get_None.
Qed.

Lemma dict_of_items_from d items :
  NoDup (d ++ items).*1 →
  foldl (fun d item => dict_set item.1 item.2 d) d items = d ++ items.
Proof.
  revert d. induction items as [|[k v] items IH]; intros d Hnd; simpl.
  - by rewrite app_nil_r.
  - rewrite dict_set_fresh.
    + rewrite IH; rewrite <- app_assoc; done.
    + rewrite fmap_app in Hnd. apply NoDup_app in Hnd as (_ & Hdisj & _).
      intros Hin. apply (Hdisj _ Hin). simpl. apply elem_of_cons; auto.
Qed.

Lemma dict_of_items_NoDup d : NoDup d.*1 → dict_of_items d = d.
Proof. intros Hnd. unfold dict_of_items. by rewrite dict_of_items_from. Qed.
End DictFacts.

(** * Facts about [result] and generators *)

Lemma traverse_Ok {A B : Type} (f : A → result B) l ks :
  traverse f l = Ok ks → Forall2 (fun x k => f x = Ok k) l ks.
Proof.
  revert ks. induction l as [|x l IH]; intros ks; simpl.
  - intros [= <-]. constructor.
  - destruct (f x) as [k|] eqn:Hx; simpl; [|done].
    destruct (traverse f l) as [ks'|]; simpl; [|done].
    intros [= <-]. constructor; auto.
Qed.

Lemma traverse_Err {A B : Type} (f : A → result B) l e :
  traverse f l = Err e → ∃ x, x ∈ l ∧ f x = Err e.
Proof.
  induction l as [|x l IH]; simpl; [done|].
  destruct (f x) as [k|e'] eqn:Hx; simpl.
  - destruct (traverse f l) as [ks'|e']; simpl; [done|].
    intros [= ->]. destruct IH as (y & Hy & Hfy); [done|].
    exists y. split; [by apply list_elem_of_further|done].
  - intros [= ->]. exists x. split; [apply list_elem_of_here|done].
Qed.

Lemma traverse_total {A B : Type} (f : A → result B) l :
  Forall (fun x => ∃ k, f x = Ok k) l → ∃ ks, traverse f l = Ok ks.
Proof.
  induction 1 as [|x l [k Hk] _ [ks Hks]]; simpl.
  - by exists [].
  - rewrite Hk, Hks. by exists (k :: ks).
Qed.

Lemma zip_keys {A B : Type} (f : A → result B) l ks :
  Forall2 (fun x k => f x = Ok k) l ks →
  (zip ks l).*2 = l ∧ Forall (fun p => f p.2 = Ok p.1) (zip ks l).
Proof.
  induction 1 as [|x k l ks Hk _ [IH1 IH2]]; csimpl.
  - split; [done|constructor].
  - split; [by rewrite IH1|by constructor].
Qed.

Lemma for_each_iter_app {A S : Type} (body : S → A → result S) l1 l2 s :
  for_each (iter (l1 ++ l2)) body s =
  for_each (iter l1) body s ≫= for_each (iter l2) body.
Proof.
  revert s. induction l1 as [|a l1 IH]; intros s; simpl; [done|].
  destruct (body s a) as [s'|]; simpl; [apply IH|done].
Qed.

(** * Facts about the sort *)

Section SortingFacts.
Context {A K : Type}.
Implicit Types (before : K → K → bool) (l : list (K * A)).

Lemma insort_perm before x l : insort before x l ≡ₚ x :: l.
Proof.
  induction l as [|y l IH]; simpl; [done|].
  destruct (before y.1 x.1); [|done].
  rewrite IH. apply Permutation_swap.
Qed.

Lemma sort_keyed_perm before l : sort_keyed before l ≡ₚ l.
Proof.
  induction l as [|x l IH]; simpl; [done|].
  rewrite insort_perm. by rewrite IH.
Qed.

(** In the sorted list no element has to stay on the left of its left
    neighbour. *)
Lemma insort_Sorted before x l :
  (∀ a b, before a b = true → before b a = false) →
  Sorted (fun p q => before q.1 p.1 = false) l →
  Sorted (fun p q => before q.1 p.1 = false) (insort before x l).
Proof.
  intros Hasym. induction 1 as [|y l Hl IH Hhd]; simpl.
  - repeat constructor.
  - destruct (before y.1 x.1) eqn:Hyx.
    + constructor; [done|].
      destruct Hhd as [|z l Hyz]; simpl.
      * constructor. by apply Hasym.
      * destruct (before z.1 x.1); constructor; [done|by apply Hasym].
    + constructor; [by constructor|by constructor].
Qed.

Lemma sort_keyed_Sorted before l :
  (∀ a b, before a b = true → before b a = false) →
  Sorted (fun p q => before q.1 p.1 = false) (sort_keyed before l).
Proof.
  intros Hasym. induction l as [|x l IH]; simpl; [constructor|].
  by apply insort_Sorted.
Qed.

(** The sort is stable: elements that the order does not tell apart keep
    their input order. *)
Lemma insort_filter before (P : K * A → Prop) `{∀ x, Decision (P x)} x l :
  (∀ y, P x → P y → before y.1 x.1 = false) →
  filter P (insort before x l) = filter P (x :: l).
Proof.
  intros Htied. induction l as [|y l IH]; simpl; [done|].
  destruct (before y.1 x.1) eqn:Hyx; [|done].
  rewrite (filter_cons _ y), IH, !filter_cons.
  destruct (decide (P x)) as [Hx|Hx], (decide (P y)) as [Hy|Hy]; try done.
  by rewrite (Htied y Hx Hy) in Hyx.
Qed.

Lemma sort_keyed_stable before (P : K * A → Prop) `{∀ x, Decision (P x)} l :
  (∀ x y, P x → P y → before y.1 x.1 = false) →
  filter P (sort_keyed before l) = filter P l.
Proof.
  intros Htied. induction l as [|x l IH]; simpl; [done|].
  rewrite insort_filter by auto. by rewrite !filter_cons, IH.
Qed.

Lemma Sorted_adjacent {B : Type} (R : B → B → Prop) (l : list B) i a b :
  Sorted R l → l !! i = Some a → l !! S i = Some b → R a b.
Proof.
  intros Hl. revert i. induction Hl as [|x l Hl IH Hhd]; intros i; [done|].
  destruct i as [|i]; simpl.
  - intros [= ->] Hb. destruct Hhd as [|y l' Hxy]; [done|].
    simpl in Hb. by injection Hb as ->.
  - apply IH.
Qed.
End SortingFacts.

Section SortedFacts.
Context {A K : Type}.
Implicit Types (lt : K → K → bool) (key : A → result K) (l : list A).

Lemma sorted_perm lt key reverse l l' : sorted lt key reverse l = Ok l' → l' ≡ₚ l.
Proof.
  unfold sorted. destruct (traverse key l) as [ks|] eqn:Hks; simpl; [|done].
  intros [= <-]. rewrite sort_keyed_perm.
  by apply traverse_Ok, zip_keys in Hks as [-> _].
Qed.

Lemma sorted_adjacent lt key reverse l l' i a b :
  (∀ x y, lt x y = true → lt y x = false) →
  sorted lt key reverse l = Ok l' →
  l' !! i = Some a → l' !! S i = Some b →
  ∃ ka kb, key a = Ok ka ∧ key b = Ok kb ∧
           (if reverse then lt ka kb else lt kb ka) = false.
Proof.
  intros Hasym. unfold sorted.
  destruct (traverse key l) as [ks|] eqn:Hks; simpl; [|done].
  intros [= <-] Ha Hb.
  apply traverse_Ok, zip_keys in Hks as [_ Hkeys].
  set (before := if reverse then flip lt else lt) in *.
  assert (∀ x y, before x y = true → before y x = false) as Hbefore.
  { unfold before. destruct reverse; unfold flip; auto. }
  pose proof (sort_keyed_Sorted before (zip ks l) Hbefore) as Hsorted.
  rewrite <- (sort_keyed_perm before) in Hkeys.
  apply list_lookup_fmap_Some in Ha as ([ka a'] & -> & Ha).
  apply list_lookup_fmap_Some in Hb as ([kb b'] & -> & Hb).
  pose proof (Sorted_adjacent _ _ _ _ _ Hsorted Ha Hb) as Hab.
  rewrite Forall_forall in Hkeys.
  exists ka, kb. split_and!.
  - apply (Hkeys (ka, a')). by eapply list_elem_of_lookup_2.
  - apply (Hkeys (kb, b')). by eapply list_elem_of_lookup_2.
  - simpl in Hab. unfold before in Hab. by destruct reverse.
Qed.

Lemma sorted_Err lt key reverse l e :
  sorted lt key reverse l = Err e → ∃ x, x ∈ l ∧ key x = Err e.
Proof.
  unfold sorted. destruct (traverse key l) as [ks|e'] eqn:Hks; simpl; [done|].
  intros [= ->]. by apply traverse_Err.
Qed.

Lemma sorted_total lt key reverse l :
  Forall (fun x => ∃ k, key x = Ok k) l → ∃ l', sorted lt key reverse l = Ok l'.
Proof.
  intros [ks Hks]%traverse_total. unfold sorted. rewrite Hks. simpl. eauto.
Qed.
End SortedFacts.

(** * Facts about the identity registry *)

Lemma getitem_name member : IDECode.__getitem__ (IDECode.name member) = Ok member.
Proof. by destruct member. Qed.

Lemma getitem_Ok s member : IDECode.__getitem__ s = Ok member → IDECode.name member = s.
Proof.
  unfold IDECode.__getitem__, dict_getitem.
  destruct (dict_get s IDECode.__members__) as [found|] eqn:Hget; [|done].
  intros [= ->]. apply dict_get_Some_elem in Hget.
  unfold IDECode.__members__ in Hget.
  apply list_elem_of_fmap in Hget as (member' & [= -> ->] & _). done.
Qed.

Lemma getitem_Err s e :
  IDECode.__getitem__ s = Err e → e = KeyError s ∧ ∀ member, IDECode.name member ≠ s.
Proof.
  unfold IDECode.__getitem__, dict_getitem.
  destruct (dict_get s IDECode.__members__) as [found|] eqn:Hget; [done|].
  intros [= <-]. split; [done|]. intros member <-.
  pose proof (getitem_name member) as Hm.
  unfold IDECode.__getitem__, dict_getitem in Hm. by rewrite Hget in Hm.
Qed.

Lemma get_known s member :
  IDECode.get s = Ok (Some member) ↔ IDECode.__getitem__ s = Ok member.
Proof.
  unfold IDECode.get. destruct (IDECode.__getitem__ s) as [found|e] eqn:Hs.
  - split; by intros [= ->].
  - apply getitem_Err in Hs as [-> _]. done.
Qed.

Lemma name_inj m1 m2 : IDECode.name m1 = IDECode.name m2 → m1 = m2.
Proof.
  intros Heq. pose proof (getitem_name m1) as H1. rewrite Heq, getitem_name in H1.
  by injection H1.
Qed.

(** * Facts about the [releases] property *)

Lemma iter_yielded {A : Type} (it : Iterator A) : raised it = None → it = iter (yielded it).
Proof. induction it as [|a rest IH|e]; simpl; intros; [done|by rewrite <- IH|done]. Qed.

Lemma yielded_iter {A : Type} (l : list A) : yielded (iter l) = l.
Proof. induction l as [|a l IH]; simpl; by rewrite ?IH. Qed.

Lemma raised_iter {A : Type} (l : list A) : raised (iter l) = None.
Proof. by induction l. Qed.

Lemma iter_inj {A : Type} (l1 l2 : list A) : iter l1 = iter l2 → l1 = l2.
Proof. intros Heq. by rewrite <- (yielded_iter l1), Heq, yielded_iter. Qed.

Lemma for_each_Ok_raised {A S : Type} (it : Iterator A) (body : S → A → result S) s s' :
  for_each it body s = Ok s' → raised it = None.
Proof.
  revert s. induction it as [|a rest IH|e]; intros s; simpl; [done| |done].
  destruct (body s a) as [s1|]; simpl; [apply IH|done].
Qed.

Lemma of_product_known ide member rs items :
  IDECode.__getitem__ (code ide) = Ok member →
  IDEList.of_product ide rs (iter items) = iter ((pair member <$> rs) ++ items).
Proof.
  intros Hm. induction rs as [|r rs IH]; simpl; [done|]. by rewrite Hm, IH.
Qed.

Lemma releases_known ides :
  Forall known ides →
  IDEList.releases ides = iter (items_of ides).
Proof.
  induction 1 as [|ide ides [member Hm%get_known] _ IH]; [done|].
  unfold IDEList.releases, items_of in *. simpl. rewrite IH, Hm.
  by apply of_product_known.
Qed.

(** * Facts about [last_build] *)

Lemma last_build_Some items v member number :
  last_build items v member = Some number →
  ∃ release, (member, release) ∈ items ∧ version release = v ∧
             build release = Some number.
Proof.
  induction items as [|[code release] items IH]; simpl; [done|].
  destruct (last_build items v member) as [found|].
  - intros [= ->]. destruct IH as (r & Hr & Hv & Hb); [done|].
    exists r. split; [by apply list_elem_of_further|done].
  - case_decide as Hd; [|done]. destruct Hd as [-> <-]. intros Hb.
    exists release. split; [apply list_elem_of_here|done].
Qed.

Lemma last_build_present items member release number :
  (member, release) ∈ items → build release = Some number →
  is_Some (last_build items (version release) member).
Proof.
  intros Hin Hb. induction items as [|[code r] items IH]; simpl.
  - by apply elem_of_nil in Hin.
  - destruct (last_build items (version release) member) as [found|] eqn:Hl; [by eauto|].
    apply elem_of_cons in Hin as [[= <- <-]|Hin].
    + rewrite decide_True by done. by eauto.
    + destruct (IH Hin) as [? ?]. done.
Qed.

Lemma last_build_last l1 l2 member release number :
  build release = Some number →
  (∀ later, (member, later) ∈ l2 → version later = version release →
            build later = None) →
  last_build (l1 ++ (member, release) :: l2) (version release) member = Some number.
Proof.
  intros Hb Hl2.
  assert (last_build l2 (version release) member = None) as Hnone.
  { destruct (last_build l2 (version release) member) as [found|] eqn:Hl; [|done].
    apply last_build_Some in Hl as (r & Hr & Hv & Hbr).
    rewrite (Hl2 r Hr Hv) in Hbr. done. }
  induction l1 as [|[code r] l1 IH]; simpl.
  - rewrite Hnone. by rewrite decide_True.
  - by rewrite IH.
Qed.

(** * Facts about the aggregator *)

Lemma dict_set_nonempty {K V : Type} `{EqDecision K} (k : K) (v : V) d :
  dict_set k v d ≠ [].
Proof. destruct d as [|[k0 v0] d]; simpl; [done|]. by case_decide. Qed.

Lemma collect_closed table code release :
  collect table (code, release) =
  Ok match build release with
     | None => table
     | Some number =>
         dict_set (version release)
           (dict_set code (Some number) (default [] (dict_get (version release) table)))
           table
     end.
Proof.
  unfold collect. destruct (build release) as [number|]; [|done].
  destruct (dict_contains (version release) table) eqn:Hc.
  - unfold dict_contains in Hc. apply bool_decide_eq_true in Hc as [row Hrow].
    unfold dict_getitem. by rewrite Hrow.
  - unfold dict_contains in Hc. apply bool_decide_eq_false in Hc.
    destruct (dict_get (version release) table) as [row|] eqn:Hrow.
    { exfalso. apply Hc. by eauto. }
    unfold dict_getitem. rewrite dict_get_set_eq. simpl.
    by rewrite dict_set_set.
Qed.

Lemma cell_empty v member : cell [] v member = None.
Proof. done. Qed.

Lemma collect_cell table code release table' v member :
  collect table (code, release) = Ok table' →
  cell table' v member =
  match (if decide (code = member ∧ version release = v) then build release
         else None) with
  | Some number => Some (Some number)
  | None => cell table v member
  end.
Proof.
  rewrite collect_closed. intros [= <-].
  destruct (build release) as [number|]; [|by case_decide].
  unfold cell. rewrite dict_get_set.
  destruct (decide (v = version release)) as [->|Hv]; simpl.
  - rewrite dict_get_set. destruct (decide (member = code)) as [->|Hm].
    + by rewrite decide_True.
    + rewrite decide_False by (intros [? ?]; congruence).
      by destruct (dict_get (version release) table).
  - rewrite decide_False by (intros [? ?]; congruence). done.
Qed.

Lemma collect_invariant table item table' :
  matrix_invariant table → collect table item = Ok table' → matrix_invariant table'.
Proof.
  destruct item as [code release]. rewrite collect_closed.
  intros [Hkeys Hrows] [= <-]. destruct (build release) as [number|]; [|done].
  split; [by apply dict_set_NoDup|].
  apply dict_set_Forall; [done|]. simpl.
  assert (NoDup (default [] (dict_get (version release) table)).*1 ∧
          Forall (fun c : IDECode.t * option string => is_Some c.2)
                 (default [] (dict_get (version release) table))) as [Hnd Hcells].
  { destruct (dict_get (version release) table) as [row|] eqn:Hrow; simpl.
    - apply dict_get_Some_elem in Hrow. rewrite Forall_forall in Hrows.
      by destruct (Hrows _ Hrow) as (_ & ? & ?).
    - split; constructor. }
  split_and!.
  - apply dict_set_nonempty.
  - by apply dict_set_NoDup.
  - apply dict_set_Forall; [done|]. simpl. by eauto.
Qed.

Lemma for_each_collect_total items table :
  ∃ table', for_each (iter items) collect table = Ok table'.
Proof.
  revert table. induction items as [|[code release] items IH]; intros table; simpl.
  - by eauto.
  - rewrite collect_closed. simpl. apply IH.
Qed.

Lemma for_each_collect_invariant items table table' :
  matrix_invariant table → for_each (iter items) collect table = Ok table' →
  matrix_invariant table'.
Proof.
  revert table. induction items as [|item items IH]; intros table Hinv; simpl.
  - by intros [= <-].
  - destruct (collect table item) as [table1|] eqn:Hc; simpl; [|done].
    apply IH. by eapply collect_invariant.
Qed.

Lemma for_each_collect_cell items table table' v member :
  for_each (iter items) collect table = Ok table' →
  cell table' v member =
  match last_build items v member with
  | Some number => Some (Some number)
  | None => cell table v member
  end.
Proof.
  revert table. induction items as [|[code release] items IH]; intros table; simpl.
  - by intros [= <-].
  - destruct (collect table (code, release)) as [table1|] eqn:Hc; simpl; [|done].
    intros Hrest. rewrite (IH _ Hrest).
    destruct (last_build items v member); [done|]. by eapply collect_cell.
Qed.

Lemma matrix_invariant_empty : matrix_invariant [].
Proof. split; constructor. Qed.

(** Every row of a well-formed matrix has a cell. *)
Lemma row_has_cell table v :
  matrix_invariant table → v ∈ table.*1 → ∃ member, is_Some (cell table v member).
Proof.
  intros [Hkeys Hrows] Hv.
  destruct (dict_get v table) as [row|] eqn:Hrow.
  - apply dict_get_Some_elem in Hrow as Hin. rewrite Forall_forall in Hrows.
    destruct (Hrows _ Hin) as (Hne & _ & _). simpl in Hne.
    destruct row as [|[member number] row]; [done|].
    exists member. unfold cell. rewrite Hrow. simpl. rewrite decide_True by done. by eauto.
  - by apply dict_get_None in Hrow.
Qed.

Lemma cell_row table v member : is_Some (cell table v member) → v ∈ table.*1.
Proof.
  unfold cell. intros [x Hx].
  destruct (dict_get v table) as [row|] eqn:Hrow; [|done].
  apply dict_get_Some_elem in Hrow. apply list_elem_of_fmap. by exists (v, row).
Qed.

Lemma cell_perm table table' v member :
  NoDup table.*1 → table ≡ₚ table' → cell table v member = cell table' v member.
Proof. intros Hnd Hperm. unfold cell. by rewrite (dict_get_perm v table table'). Qed.

Lemma matrix_invariant_perm table table' :
  table ≡ₚ table' → matrix_invariant table → matrix_invariant table'.
Proof. intros Hperm [Hkeys Hrows]. split; by rewrite <- Hperm. Qed.

Section AggregatorFacts.
Context {Key : Type} (Version : string → option Key) (lt : Key → Key → bool).

Lemma version_key_Ok item key :
  version_key Version item = Ok key ↔ Version item.1 = Some key.
Proof.
  unfold version_key. destruct (Version item.1) as [k|]; split; intros Heq;
    by simplify_eq.
Qed.

Lemma version_key_Err item e :
  version_key Version item = Err e ↔ Version item.1 = None ∧ e = InvalidVersion item.1.
Proof.
  unfold version_key. destruct (Version item.1) as [k|]; split.
  - done.
  - by intros [? _].
  - by intros [= <-].
  - by intros [_ ->].
Qed.

(** The rows come from releases that carry a build identifier. *)
Lemma table_keys items unsorted v :
  for_each (iter items) collect [] = Ok unsorted → v ∈ unsorted.*1 →
  ∃ member release number,
    (member, release) ∈ items ∧ version release = v ∧ build release = Some number.
Proof.
  intros Hloop Hv.
  pose proof (for_each_collect_invariant _ _ _ matrix_invariant_empty Hloop) as Hinv.
  destruct (row_has_cell _ _ Hinv Hv) as [member [x Hx]].
  rewrite (for_each_collect_cell _ _ _ _ _ Hloop), cell_empty in Hx.
  destruct (last_build items v member) as [number|] eqn:Hl; [|done].
  apply last_build_Some in Hl as (release & ? & ? & ?). by eauto 6.
Qed.

(** A successful run went through the whole input, and its result is the
    loop's table in another order. *)
Lemma map_version_Ok ides table :
  _map_version_to_build_numbers Version lt ides = Ok table →
  ∃ unsorted,
    IDEList.releases ides = iter (yielded (IDEList.releases ides)) ∧
    for_each (iter (yielded (IDEList.releases ides))) collect [] = Ok unsorted ∧
    sorted lt (version_key Version) true unsorted = Ok table ∧
    table ≡ₚ unsorted ∧ matrix_invariant unsorted.
Proof.
  unfold _map_version_to_build_numbers.
  destruct (for_each (IDEList.releases ides) collect []) as [unsorted|] eqn:Hloop;
    simpl; [|done].
  destruct (sorted lt (version_key Version) true unsorted) as [items|] eqn:Hsort;
    simpl; [|done].
  intros [= <-].
  pose proof (iter_yielded _ (for_each_Ok_raised _ _ _ _ Hloop)) as Hiter.
  rewrite Hiter in Hloop.
  pose proof (for_each_collect_invariant _ _ _ matrix_invariant_empty Hloop) as Hinv.
  pose proof (sorted_perm _ _ _ _ _ Hsort) as Hperm.
  assert (dict_of_items items = items) as ->.
  { apply dict_of_items_NoDup. rewrite Hperm. apply Hinv. }
  by exists unsorted.
Qed.

Lemma map_version_total ides items :
  IDEList.releases ides = iter items →
  Forall (fun item : IDECode.t * Release =>
            is_Some (build item.2) → is_Some (Version (version item.2))) items →
  ∃ table, _map_version_to_build_numbers Version lt ides = Ok table.
Proof.
  intros Hiter Hparse. unfold _map_version_to_build_numbers. rewrite Hiter.
  destruct (for_each_collect_total items []) as [unsorted Hloop]. rewrite Hloop. simpl.
  destruct (sorted_total lt (version_key Version) true unsorted) as [sorted_items Hsort].
  { apply Forall_forall. intros [v row] Hin.
    destruct (table_keys items unsorted v Hloop) as (member & release & number & Hr & <- & Hb).
    { apply list_elem_of_fmap. by exists (v, row). }
    rewrite Forall_forall in Hparse.
    destruct (Hparse _ Hr) as [key Hkey]; [by simpl; eauto|].
    exists key. by apply version_key_Ok. }
  rewrite Hsort. simpl. by eauto.
Qed.

(** The cells of the result, read off the input. *)
Lemma map_version_cell ides items table v member :
  IDEList.releases ides = iter items →
  _map_version_to_build_numbers Version lt ides = Ok table →
  cell table v member = Some <$> last_build items v member.
Proof.
  intros Hiter (unsorted & _ & Hloop & _ & Hperm & Hinv)%map_version_Ok.
  rewrite Hiter, yielded_iter in Hloop.
  rewrite <- (cell_perm unsorted table) by (by destruct Hinv).
  rewrite (for_each_collect_cell _ _ _ _ _ Hloop), cell_empty.
  by destruct (last_build items v member).
Qed.

Lemma map_version_keys ides items table v :
  IDEList.releases ides = iter items →
  _map_version_to_build_numbers Version lt ides = Ok table →
  v ∈ table.*1 →
  ∃ member release number,
    (member, release) ∈ items ∧ version release = v ∧ build release = Some number.
Proof.
  intros Hiter (unsorted & _ & Hloop & _ & Hperm & Hinv)%map_version_Ok Hv.
  rewrite Hiter, yielded_iter in Hloop.
  apply (table_keys items unsorted v Hloop). by rewrite <- Hperm.
Qed.

(** A release without a build identifier can be taken out of the input:
    the loop never looks at it. *)
Lemma collect_skips_absent_build l1 l2 member release table :
  build release = None →
  for_each (iter (l1 ++ (member, release) :: l2)) collect table =
  for_each (iter (l1 ++ l2)) collect table.
Proof.
  intros Hb. rewrite !for_each_iter_app.
  destruct (for_each (iter l1) collect table) as [table1|]; simpl; [|done].
  by rewrite collect_closed, Hb.
Qed.

Lemma map_version_adjacent ides table i v1 v2 :
  (∀ x y, lt x y = true → lt y x = false) →
  _map_version_to_build_numbers Version lt ides = Ok table →
  table.*1 !! i = Some v1 → table.*1 !! S i = Some v2 →
  ∃ k1 k2, Version v1 = Some k1 ∧ Version v2 = Some k2 ∧ lt k1 k2 = false.
Proof.
  intros Hasym (unsorted & _ & _ & Hsort & _)%map_version_Ok H1 H2.
  apply list_lookup_fmap_Some in H1 as ([v1' row1] & -> & H1).
  apply list_lookup_fmap_Some in H2 as ([v2' row2] & -> & H2).
  destruct (sorted_adjacent _ _ _ _ _ _ _ _ Hasym Hsort H1 H2)
    as (k1 & k2 & Hk1%version_key_Ok & Hk2%version_key_Ok & Hlt).
  by exists k1, k2.
Qed.
End AggregatorFacts.

(** * Facts about the version order *)

Lemma tuple_lt_irrefl a : packaging.tuple_lt a a = false.
Proof.
  induction a as [|x a IH]; simpl; [done|].
  by rewrite N.ltb_irrefl, N.eqb_refl.
Qed.

Lemma tuple_lt_asym a b :
  packaging.tuple_lt a b = true → packaging.tuple_lt b a = false.
Proof.
  revert b. induction a as [|x a IH]; intros [|y b]; simpl; try done.
  destruct (N.ltb_spec x y), (N.ltb_spec y x), (N.eqb_spec x y), (N.eqb_spec y x);
    try done; try lia. apply IH.
Qed.

Lemma tuple_lt_connex a b :
  packaging.tuple_lt a b = false → a ≠ b → packaging.tuple_lt b a = true.
Proof.
  revert b. induction a as [|x a IH]; intros [|y b]; simpl; try done.
  destruct (N.ltb_spec x y), (N.ltb_spec y x), (N.eqb_spec x y), (N.eqb_spec y x);
    try done; try lia.
  intros Hlt Hne. apply IH; [done|]. congruence.
Qed.

Lemma tuple_lt_trans a b c :
  packaging.tuple_lt a b = true → packaging.tuple_lt b c = true →
  packaging.tuple_lt a c = true.
Proof.
  revert b c. induction a as [|x a IH]; intros [|y b] [|z c]; simpl; try done.
  destruct (N.ltb_spec x y), (N.ltb_spec y z), (N.ltb_spec x z),
    (N.eqb_spec x y), (N.eqb_spec y z), (N.eqb_spec x z); try done; try lia.
  apply IH.
Qed.

Lemma version_lt_asym a b : packaging.lt a b = true → packaging.lt b a = false.
Proof. apply tuple_lt_asym. Qed.

(** The segments are compared as integers: [2024.10] is above [2024.9],
    which the order of the strings gets the other way round. *)
Example ten_above_nine :
  (a ← packaging.parse "2024.9"; b ← packaging.parse "2024.10";
   Some (packaging.lt a b)) = Some true
  ∧ ("2024.10" <? "2024.9")%string = true.
Proof. split; reflexivity. Qed.

(** * The version-build matrix *)

(** C1, as amended.  When every version of the input parses, the run
    returns a matrix whose row keys are pairwise distinct strings and
    descend: of two adjacent keys the upper one is never below the lower
    one in the segment-wise integer order, and it is strictly above it
    unless the two strings denote the same version. *)
Theorem rows_descend ides items :
  IDEList.releases ides = iter items →
  Forall (fun item : IDECode.t * Release =>
            is_Some (packaging.parse (version item.2))) items →
  ∃ table,
    _map_version_to_build_numbers packaging.parse packaging.lt ides = Ok table ∧
    NoDup table.*1 ∧
    ∀ i v1 v2, table.*1 !! i = Some v1 → table.*1 !! S i = Some v2 →
      ∃ k1 k2, packaging.parse v1 = Some k1 ∧ packaging.parse v2 = Some k2 ∧
               packaging.lt k1 k2 = false ∧
               (packaging._key k1 ≠ packaging._key k2 → packaging.lt k2 k1 = true).
Proof.
  intros Hiter Hparse.
  destruct (map_version_total packaging.parse packaging.lt ides items Hiter)
    as [table Htable].
  { eapply Forall_impl; [exact Hparse|]. by intros item Hitem _. }
  exists table. split; [done|]. split.
  - apply map_version_Ok in Htable as (unsorted & _ & _ & _ & Hperm & [Hnd _]).
    by rewrite Hperm.
  - intros i v1 v2 H1 H2.
    destruct (map_version_adjacent _ _ _ _ _ _ _ version_lt_asym Htable H1 H2)
      as (k1 & k2 & Hk1 & Hk2 & Hlt).
    exists k1, k2. split_and!; try done.
    intros Hne. apply tuple_lt_connex; [exact Hlt|done].
Qed.

Lemma rows_descend_witness :
  IDEList.releases spec_example = iter (items_of spec_example) ∧
  Forall (fun item : IDECode.t * Release =>
            is_Some (packaging.parse (version item.2))) (items_of spec_example) ∧
  ∃ table,
    _map_version_to_build_numbers packaging.parse packaging.lt spec_example = Ok table ∧
    NoDup table.*1 ∧
    ∀ i v1 v2, table.*1 !! i = Some v1 → table.*1 !! S i = Some v2 →
      ∃ k1 k2, packaging.parse v1 = Some k1 ∧ packaging.parse v2 = Some k2 ∧
               packaging.lt k1 k2 = false ∧
               (packaging._key k1 ≠ packaging._key k2 → packaging.lt k2 k1 = true).
Proof.
  assert (Forall (fun item : IDECode.t * Release =>
            is_Some (packaging.parse (version item.2))) (items_of spec_example)) as Hparse.
  { each_release. }
  split; [reflexivity|]. split; [exact Hparse|].
  exact (rows_descend spec_example (items_of spec_example) eq_refl Hparse).
Defined.

(** The two spellings of one version make two rows, in input order. *)
Example two_spellings_matrix :
  _map_version_to_build_numbers packaging.parse packaging.lt two_spellings =
  Ok [("2024.1", [(IDECode.IIU, Some "241.1")]);
      ("2024.01", [(IDECode.IIU, Some "241.2")])]
  ∧ packaging.parse "2024.1" = Some {| packaging.release := [2024; 1]%N |}
  ∧ packaging.parse "2024.01" = Some {| packaging.release := [2024; 1]%N |}.
Proof. by split_and!. Qed.

(** The claim as the specification has it, with [>] between adjacent keys,
    fails on [two_spellings]: the rows [2024.1] and [2024.01] are adjacent
    and have the same segments. *)
Lemma rows_not_strictly_descending :
  ¬ (∀ ides items table i v1 v2 k1 k2,
       IDEList.releases ides = iter items →
       Forall (fun item : IDECode.t * Release =>
                 is_Some (packaging.parse (version item.2))) items →
       _map_version_to_build_numbers packaging.parse packaging.lt ides = Ok table →
       table.*1 !! i = Some v1 → table.*1 !! S i = Some v2 →
       packaging.parse v1 = Some k1 → packaging.parse v2 = Some k2 →
       packaging.tuple_lt (packaging.release k2) (packaging.release k1) = true).
Proof.
  intros Hclaim.
  assert (packaging.tuple_lt [2024; 1]%N [2024; 1]%N = true) as Habsurd; [|done].
  apply (Hclaim two_spellings (items_of two_spellings)
    [("2024.1", [(IDECode.IIU, Some "241.1")]); ("2024.01", [(IDECode.IIU, Some "241.2")])]
    0%nat "2024.1" "2024.01"
    {| packaging.release := [2024; 1]%N |} {| packaging.release := [2024; 1]%N |});
    try reflexivity.
  each_release.
Qed.

Section MatrixClaims.
Context {Key : Type} (Version : string → option Key) (lt : Key → Key → bool).

(** C2.  When the versions of the releases that carry a build identifier
    parse, the run returns a matrix in which every such release has a
    non-absent cell at its version and identity.  Every cell and every row
    of the matrix come from a release with a build identifier, and a
    release without one can be taken out of the input without changing
    the matrix: it contributes no row and no cell. *)
Theorem present_builds_fill_the_matrix ides items :
  IDEList.releases ides = iter items →
  Forall (fun item : IDECode.t * Release =>
            is_Some (build item.2) → is_Some (Version (version item.2))) items →
  ∃ table,
    _map_version_to_build_numbers Version lt ides = Ok table ∧
    (∀ member release number,
       (member, release) ∈ items → build release = Some number →
       ∃ number', cell table (version release) member = Some (Some number')) ∧
    (∀ v member x,
       cell table v member = Some x →
       ∃ release number,
         (member, release) ∈ items ∧ version release = v ∧
         build release = Some number ∧ x = Some number) ∧
    (∀ v, v ∈ table.*1 →
       ∃ member release number,
         (member, release) ∈ items ∧ version release = v ∧
         build release = Some number) ∧
    (∀ ides' before member release after,
       items = before ++ (member, release) :: after → build release = None →
       IDEList.releases ides' = iter (before ++ after) →
       _map_version_to_build_numbers Version lt ides' = Ok table).
Proof.
  intros Hiter Hparse.
  destruct (map_version_total Version lt ides items Hiter Hparse) as [table Htable].
  exists table. split_and!; [done| | | |].
  - intros member release number Hin Hb.
    rewrite (map_version_cell Version lt ides items table _ _ Hiter Htable).
    destruct (last_build_present items member release number Hin Hb) as [number' ->].
    by exists number'.
  - intros v member x.
    rewrite (map_version_cell Version lt ides items table _ _ Hiter Htable).
    destruct (last_build items v member) as [number|] eqn:Hl; [|done].
    intros [= <-]. apply last_build_Some in Hl as (release & ? & ? & ?).
    by exists release, number.
  - intros v. by apply (map_version_keys Version lt ides items table).
  - intros ides' l1 member release l2 -> Hb Hiter'. rewrite <- Htable.
    unfold _map_version_to_build_numbers. rewrite Hiter, Hiter'.
    by rewrite collect_skips_absent_build.
Qed.

(** C3.  A release that carries a build identifier and whose version the
    parser rejects makes the run fail: the result is no matrix but the
    parser's [InvalidVersion], and the string it names is a rejected
    version of the input. *)
Theorem rejected_version_is_fatal ides items member release number :
  IDEList.releases ides = iter items →
  (member, release) ∈ items → build release = Some number →
  Version (version release) = None →
  ∃ v, _map_version_to_build_numbers Version lt ides = Err (InvalidVersion v) ∧
       Version v = None ∧
       ∃ member' release' number',
         (member', release') ∈ items ∧ version release' = v ∧
         build release' = Some number'.
Proof.
  intros Hiter Hin Hb Hrejected. unfold _map_version_to_build_numbers. rewrite Hiter.
  destruct (for_each_collect_total items []) as [unsorted Hloop]. rewrite Hloop. simpl.
  destruct (sorted lt (version_key Version) true unsorted) as [rows|e] eqn:Hsort; simpl.
  - exfalso. unfold sorted in Hsort.
    destruct (traverse (version_key Version) unsorted) as [keys|] eqn:Hkeys; [|done].
    apply traverse_Ok in Hkeys.
    assert (version release ∈ unsorted.*1) as Hrow.
    { apply (cell_row _ _ member).
      rewrite (for_each_collect_cell _ _ _ _ _ Hloop).
      destruct (last_build_present items member release number Hin Hb) as [? ->].
      by eauto. }
    apply list_elem_of_fmap in Hrow as ([v row] & Hv & Hrow). simpl in Hv. subst v.
    apply list_elem_of_lookup in Hrow as [i Hi].
    destruct (Forall2_lookup_l _ _ _ _ _ Hkeys Hi) as (key & _ & Hkey).
    apply version_key_Ok in Hkey. simpl in Hkey. congruence.
  - apply sorted_Err in Hsort as ([v row] & Hrow & [Hv ->]%version_key_Err).
    exists v. split_and!; [done..|].
    apply (table_keys items unsorted v Hloop).
    apply list_elem_of_fmap. by exists (v, row).
Qed.

(** C4.  In the matrix a run returns, no row is empty and no cell is
    absent. *)
Theorem rows_are_never_empty ides table :
  _map_version_to_build_numbers Version lt ides = Ok table →
  ∀ v row, (v, row) ∈ table →
    row ≠ [] ∧ ∀ member x, (member, x) ∈ row → x ≠ None.
Proof.
  intros (unsorted & _ & _ & _ & Hperm & [_ Hrows])%map_version_Ok v row Hin.
  rewrite <- Hperm in Hrows. rewrite Forall_forall in Hrows.
  destruct (Hrows _ Hin) as (Hne & _ & Hcells). split; [done|].
  intros member x Hx. rewrite Forall_forall in Hcells.
  destruct (Hcells _ Hx) as [? Hsome]. simpl in Hsome. by rewrite Hsome.
Qed.

(** C8.  Of the releases of one identity and one version that carry a
    build identifier, the last in input order fills the cell. *)
Theorem last_seen_build_wins ides before member release number after :
  IDEList.releases ides = iter (before ++ (member, release) :: after) →
  Forall (fun item : IDECode.t * Release =>
            is_Some (build item.2) → is_Some (Version (version item.2)))
         (before ++ (member, release) :: after) →
  build release = Some number →
  (∀ later, (member, later) ∈ after → version later = version release →
            build later = None) →
  ∃ table,
    _map_version_to_build_numbers Version lt ides = Ok table ∧
    cell table (version release) member = Some (Some number).
Proof.
  intros Hiter Hparse Hb Hlast.
  destruct (map_version_total Version lt ides _ Hiter Hparse) as [table Htable].
  exists table. split; [done|].
  rewrite (map_version_cell Version lt ides _ table _ _ Hiter Htable).
  by rewrite (last_build_last before after member release number Hb Hlast).
Qed.
End MatrixClaims.

Lemma present_builds_fill_the_matrix_witness :
  IDEList.releases spec_example = iter (items_of spec_example) ∧
  Forall (fun item : IDECode.t * Release =>
            is_Some (build item.2) → is_Some (packaging.parse (version item.2)))
         (items_of spec_example) ∧
  ∃ table,
    _map_version_to_build_numbers packaging.parse packaging.lt spec_example = Ok table ∧
    (∀ member release number,
       (member, release) ∈ items_of spec_example → build release = Some number →
       ∃ number', cell table (version release) member = Some (Some number')) ∧
    (∀ v member x,
       cell table v member = Some x →
       ∃ release number,
         (member, release) ∈ items_of spec_example ∧ version release = v ∧
         build release = Some number ∧ x = Some number) ∧
    (∀ v, v ∈ table.*1 →
       ∃ member release number,
         (member, release) ∈ items_of spec_example ∧ version release = v ∧
         build release = Some number) ∧
    (∀ ides' before member release after,
       items_of spec_example = before ++ (member, release) :: after →
       build release = None →
       IDEList.releases ides' = iter (before ++ after) →
       _map_version_to_build_numbers packaging.parse packaging.lt ides' = Ok table).
Proof.
  assert (Forall (fun item : IDECode.t * Release =>
            is_Some (build item.2) → is_Some (packaging.parse (version item.2)))
         (items_of spec_example)) as Hparse by each_release.
  split; [reflexivity|]. split; [exact Hparse|].
  exact (present_builds_fill_the_matrix packaging.parse packaging.lt
           spec_example (items_of spec_example) eq_refl Hparse).
Defined.

(** The example of the specification: two rows, the later version first,
    and nothing of the release without build identifier. *)
Example spec_example_matrix :
  _map_version_to_build_numbers packaging.parse packaging.lt spec_example =
  Ok [("2024.1", [(IDECode.IIU, Some "241.1")]);
      ("2023.3", [(IDECode.IIU, Some "233.100")])].
Proof. reflexivity. Qed.

Lemma rejected_version_is_fatal_witness :
  IDEList.releases latest_release = iter (items_of latest_release) ∧
  (IDECode.IIU, {| version := "latest"; build := Some "251.1"; date := on 2025 4 5 |})
    ∈ items_of latest_release ∧
  packaging.parse "latest" = None ∧
  ∃ v, _map_version_to_build_numbers packaging.parse packaging.lt latest_release
       = Err (InvalidVersion v) ∧
       packaging.parse v = None ∧
       ∃ member' release' number',
         (member', release') ∈ items_of latest_release ∧ version release' = v ∧
         build release' = Some number'.
Proof.
  assert ((IDECode.IIU,
           {| version := "latest"; build := Some "251.1"; date := on 2025 4 5 |})
          ∈ items_of latest_release) as Hin.
  { apply list_elem_of_further, list_elem_of_here. }
  split; [reflexivity|]. split; [exact Hin|]. split; [reflexivity|].
  exact (rejected_version_is_fatal packaging.parse packaging.lt latest_release
           (items_of latest_release) IDECode.IIU _ "251.1" eq_refl Hin eq_refl eq_refl).
Defined.

(** The error of that run names the string [latest]. *)
Example latest_is_named :
  _map_version_to_build_numbers packaging.parse packaging.lt latest_release =
  Err (InvalidVersion "latest").
Proof. reflexivity. Qed.

Lemma rows_are_never_empty_witness :
  _map_version_to_build_numbers packaging.parse packaging.lt spec_example =
    Ok [("2024.1", [(IDECode.IIU, Some "241.1")]);
        ("2023.3", [(IDECode.IIU, Some "233.100")])] ∧
  ∀ v row,
    (v, row) ∈ [("2024.1", [(IDECode.IIU, Some "241.1")]);
                ("2023.3", [(IDECode.IIU, Some "233.100")])] →
    row ≠ [] ∧ ∀ member x, (member, x) ∈ row → x ≠ None.
Proof.
  split; [reflexivity|].
  exact (rows_are_never_empty packaging.parse packaging.lt spec_example _ eq_refl).
Defined.

(** The later of the two builds of [2024.1] is in the cell. *)
Example repeated_release_matrix :
  _map_version_to_build_numbers packaging.parse packaging.lt repeated_release =
  Ok [("2024.1", [(IDECode.IIU, Some "241.2")])].
Proof. reflexivity. Qed.

Lemma last_seen_build_wins_witness :
  IDEList.releases repeated_release =
    iter ([(IDECode.IIU,
            {| version := "2024.1"; build := Some "241.1"; date := on 2024 4 4 |})]
          ++ (IDECode.IIU,
              {| version := "2024.1"; build := Some "241.2"; date := on 2024 4 5 |})
          :: []) ∧
  ∃ table,
    _map_version_to_build_numbers packaging.parse packaging.lt repeated_release
    = Ok table ∧
    cell table "2024.1" IDECode.IIU = Some (Some "241.2").
Proof.
  split; [reflexivity|].
  apply (last_seen_build_wins packaging.parse packaging.lt repeated_release
           [(IDECode.IIU,
             {| version := "2024.1"; build := Some "241.1"; date := on 2024 4 4 |})]
           IDECode.IIU
           {| version := "2024.1"; build := Some "241.2"; date := on 2024 4 5 |}
           "241.2" []).
  - reflexivity.
  - each_release.
  - reflexivity.
  - intros later Hlater. by apply elem_of_nil in Hlater.
Defined.

(** * The grouped view *)

Lemma dict_get_fmap {K V W : Type} `{EqDecision K} (f : V → W) (k : K) d :
  dict_get k (prod_map id f <$> d) = f <$> dict_get k d.
Proof.
  induction d as [|[k0 v0] d IH]; csimpl; [done|]. by case_decide.
Qed.

Lemma append_release_closed d member release :
  append_release d (member, release) =
  Ok (dict_set (IDECode.name member)
        (default [] (dict_get (IDECode.name member) d) ++ [release_as_json release]) d).
Proof.
  unfold append_release.
  destruct (dict_contains (IDECode.name member) d) eqn:Hc.
  - unfold dict_contains in Hc. apply bool_decide_eq_true in Hc as [entries Hentries].
    unfold dict_getitem. by rewrite Hentries.
  - unfold dict_contains in Hc. apply bool_decide_eq_false in Hc.
    destruct (dict_get (IDECode.name member) d) as [entries|] eqn:Hentries.
    { exfalso. apply Hc. by eauto. }
    unfold dict_getitem. rewrite dict_get_set_eq. simpl. by rewrite dict_set_set.
Qed.

Lemma for_each_append_total items d :
  ∃ d', for_each (iter items) append_release d = Ok d'.
Proof.
  revert d. induction items as [|[member release] items IH]; intros d; simpl.
  - by eauto.
  - rewrite append_release_closed. simpl. apply IH.
Qed.

Lemma for_each_append_NoDup items d d' :
  NoDup d.*1 → for_each (iter items) append_release d = Ok d' → NoDup d'.*1.
Proof.
  revert d. induction items as [|[member release] items IH]; intros d Hnd; simpl.
  - by intros [= <-].
  - rewrite append_release_closed. simpl. apply IH. by apply dict_set_NoDup.
Qed.

Lemma grouped_cons member release items key :
  grouped ((member, release) :: items) key =
  if decide (IDECode.name member = key)
  then release_as_json release :: grouped items key else grouped items key.
Proof. unfold grouped. rewrite filter_cons. simpl. by case_decide. Qed.

Lemma for_each_append_get items d d' key :
  for_each (iter items) append_release d = Ok d' →
  dict_get key d' =
  match dict_get key d with
  | Some entries => Some (entries ++ grouped items key)
  | None => match grouped items key with
            | [] => None
            | entries => Some entries
            end
  end.
Proof.
  revert d. induction items as [|[member release] items IH]; intros d; simpl.
  - intros [= <-]. destruct (dict_get key d); [by rewrite app_nil_r|done].
  - rewrite append_release_closed. simpl. intros Hrest.
    rewrite (IH _ Hrest), dict_get_set, grouped_cons.
    destruct (decide (key = IDECode.name member)) as [->|Hkey].
    + rewrite decide_True by done.
      destruct (dict_get (IDECode.name member) d); simpl; [|done].
      by rewrite <- app_assoc.
    + by rewrite decide_False by done.
Qed.

Lemma grouped_app items1 items2 key :
  grouped (items1 ++ items2) key = grouped items1 key ++ grouped items2 key.
Proof. unfold grouped. by rewrite filter_app, fmap_app. Qed.

Lemma grouped_of_product member rs key :
  grouped (pair member <$> rs) key =
  if decide (IDECode.name member = key) then release_as_json <$> rs else [].
Proof.
  induction rs as [|r rs IH]; csimpl; [by case_decide|].
  rewrite grouped_cons, IH. by case_decide.
Qed.

Lemma releases_of_cons member ide ides :
  releases_of member (ide :: ides) =
  if decide (code ide = IDECode.name member)
  then releases ide ++ releases_of member ides else releases_of member ides.
Proof. unfold releases_of. rewrite filter_cons. by case_decide. Qed.

(** For products with known codes, grouping the yielded pairs by name is
    grouping the releases by product code. *)
Lemma grouped_items_of ides member :
  Forall known ides →
  grouped (items_of ides) (IDECode.name member) =
  release_as_json <$> releases_of member ides.
Proof.
  induction 1 as [|ide ides [found Hfound%get_known] _ IH]; [done|].
  unfold items_of in *. rewrite bind_cons, Hfound, grouped_app, IH.
  rewrite grouped_of_product, releases_of_cons.
  apply getitem_Ok in Hfound as <-.
  destruct (decide (IDECode.name found = IDECode.name member)) as [Heq|Hne].
  - by rewrite fmap_app.
  - done.
Qed.

Lemma grouped_nonempty items key :
  grouped items key ≠ [] → ∃ member, key = IDECode.name member.
Proof.
  induction items as [|[member release] items IH]; [done|].
  rewrite grouped_cons. case_decide; [by eauto|done].
Qed.

(** What [_update_json] returns when the generator does not raise. *)
Lemma update_json_Ok ides items :
  IDEList.releases ides = iter items →
  ∃ members,
    _update_json ides = Ok (JObject members) ∧ NoDup members.*1 ∧
    ∀ key, dict_get key members =
           match grouped items key with
           | [] => None
           | entries => Some (JArray entries)
           end.
Proof.
  intros Hiter. unfold _update_json. rewrite Hiter.
  destruct (for_each_append_total items []) as [d Hd]. rewrite Hd. simpl.
  eexists. split; [done|]. split.
  - rewrite <- list_fmap_compose.
    assert (NoDup d.*1) as Hnd.
    { apply (for_each_append_NoDup items [] d); [apply NoDup_nil_2|done]. }
    rewrite (list_fmap_ext (fst ∘ prod_map id JArray) fst d); [done|].
    by intros i [k v] _.
  - intros key. rewrite dict_get_fmap, (for_each_append_get _ _ _ _ Hd). simpl.
    by destruct (grouped items key).
Qed.

(** The object of a release determines the release: no field is lost. *)
Lemma digit_inj a b : datetime.digit a = datetime.digit b → (a mod 10 = b mod 10)%N.
Proof.
  unfold datetime.digit. intros Heq. apply (f_equal N_of_ascii) in Heq.
  assert (∀ n, (48 + n mod 10 < 256)%N) as Hsmall.
  { intros n. pose proof (N.mod_lt n 10). lia. }
  rewrite !N_ascii_embedding in Heq by apply Hsmall. lia.
Qed.

Lemma last_digit_inj a b :
  (a / 10 = b / 10)%N → (a mod 10 = b mod 10)%N → a = b.
Proof.
  intros Hdiv Hmod. rewrite (N.div_mod a 10), (N.div_mod b 10) by done.
  by rewrite Hdiv, Hmod.
Qed.

Lemma isoformat_inj d1 d2 :
  datetime.in_range d1 → datetime.in_range d2 →
  datetime.isoformat d1 = datetime.isoformat d2 → d1 = d2.
Proof.
  destruct d1 as [y1 m1 d1], d2 as [y2 m2 d2].
  unfold datetime.in_range, datetime.isoformat. simpl.
  intros (Hy1 & Hm1 & Hd1) (Hy2 & Hm2 & Hd2) Heq.
  injection Heq as Ha Hb Hc Hd He Hf Hg Hh.
  apply digit_inj in Ha, Hb, Hc, Hd, He, Hf, Hg, Hh.
  assert (∀ n, (n ≤ 9999 → n / 1000 < 10)%N) as Hthousands.
  { intros n Hn. apply N.Div0.div_lt_upper_bound; lia. }
  assert (∀ n, (n ≤ 31 → n / 10 < 10)%N) as Htens.
  { intros n Hn. apply N.Div0.div_lt_upper_bound; lia. }
  rewrite !N.mod_small in Ha by (apply Hthousands; lia).
  rewrite !N.mod_small in He by (apply Htens; lia).
  rewrite !N.mod_small in Hg by (apply Htens; lia).
  f_equal.
  - apply last_digit_inj; [|done]. apply last_digit_inj; [|done].
    rewrite !N.Div0.div_div. apply last_digit_inj; [|done].
    rewrite !N.Div0.div_div. done.
  - by apply last_digit_inj.
  - by apply last_digit_inj.
Qed.

Lemma release_as_json_inj r1 r2 :
  datetime.in_range (date r1) → datetime.in_range (date r2) →
  release_as_json r1 = release_as_json r2 → r1 = r2.
Proof.
  destruct r1 as [v1 b1 d1], r2 as [v2 b2 d2]. unfold release_as_json. simpl.
  intros Hd1 Hd2.
  remember (datetime.isoformat d1) as s1 eqn:Hs1.
  remember (datetime.isoformat d2) as s2 eqn:Hs2.
  intros [= Hv Hb Hs]. rewrite Hs1, Hs2 in Hs.
  apply isoformat_inj in Hs; [|done..]. subst v2 d2.
  by destruct b1, b2; simplify_eq.
Qed.

(** The script's conversion makes the release object of the release. *)
Lemma digit_of_digit n : digit_of (datetime.digit n) = Some (n mod 10)%N.
Proof.
  unfold digit_of, datetime.digit.
  assert (n mod 10 < 10)%N as Hlt by (by apply N.mod_lt).
  generalize dependent (n mod 10)%N. intros m Hm.
  rewrite N_ascii_embedding by lia.
  destruct (N.leb_spec 48 (48 + m)); [|lia].
  destruct (N.leb_spec (48 + m) 57); [|lia].
  simpl. f_equal. lia.
Qed.

Lemma two_digits n : (n ≤ 99 → 10 * ((n / 10) mod 10) + n mod 10 = n)%N.
Proof.
  intros Hn. rewrite (N.mod_small (n / 10)) by (apply N.Div0.div_lt_upper_bound; lia).
  pose proof (N.div_mod n 10). lia.
Qed.

Lemma four_digits n :
  (n ≤ 9999 →
   1000 * ((n / 1000) mod 10) + 100 * ((n / 100) mod 10) + 10 * ((n / 10) mod 10)
   + n mod 10 = n)%N.
Proof.
  intros Hn.
  rewrite (N.mod_small (n / 1000)) by (apply N.Div0.div_lt_upper_bound; lia).
  pose proof (N.div_mod n 10) as H1.
  pose proof (N.div_mod (n / 10) 10) as H2. rewrite N.Div0.div_div in H2.
  pose proof (N.div_mod (n / 100) 10) as H3. rewrite N.Div0.div_div in H3.
  change (10 * 10)%N with 100%N in H2. change (100 * 10)%N with 1000%N in H3. lia.
Qed.

Lemma date_of_iso_isoformat d :
  datetime.in_range d → date_of_iso (datetime.isoformat d) = Some d.
Proof.
  destruct d as [y m d]. unfold datetime.in_range. simpl.
  intros (Hy & Hm & Hd). rewrite !digit_of_digit. simpl.
  by rewrite four_digits, !two_digits by lia.
Qed.

Lemma release_as_json_object release :
  is_release_object release (release_as_json release).
Proof.
  exists (datetime.isoformat (date release)). split_and!.
  - done.
  - done.
  - apply date_of_iso_isoformat.
Qed.

Lemma releases_as_json_objects rs :
  Forall2 is_release_object rs (release_as_json <$> rs).
Proof.
  induction rs as [|r rs IH]; csimpl; constructor; [apply release_as_json_object|done].
Qed.

(** C5.  For products with known codes the grouped view holds, under the
    name of every identity, one object for every release of the products
    with that code, in input order: the members [version], [build] and
    [date] of the object are the version of the release, its build
    identifier, or [null] for a release without one, and its date.  No
    release is left out and none is added.  An identity without any
    release has no key. *)
Theorem grouped_view_keeps_every_release ides :
  Forall known ides →
  ∃ members,
    _update_json ides = Ok (JObject members) ∧
    ∀ member,
      match releases_of member ides with
      | [] => dict_get (IDECode.name member) members = None
      | _ :: _ =>
          ∃ entries,
            dict_get (IDECode.name member) members = Some (JArray entries) ∧
            length entries = length (releases_of member ides) ∧
            Forall2 is_release_object (releases_of member ides) entries
      end.
Proof.
  intros Hknown.
  destruct (update_json_Ok ides (items_of ides) (releases_known ides Hknown))
    as (members & Hmembers & _ & Hget).
  exists members. split; [done|]. intros member.
  rewrite Hget, (grouped_items_of ides member Hknown).
  pose proof (releases_as_json_objects (releases_of member ides)) as Hobjects.
  destruct (releases_of member ides) as [|r rs]; [done|].
  exists (release_as_json <$> r :: rs). split; [done|]. split; [|exact Hobjects].
  by rewrite length_fmap.
Qed.

Lemma grouped_view_keeps_every_release_witness :
  Forall known spec_example ∧
  ∃ members,
    _update_json spec_example = Ok (JObject members) ∧
    ∀ member,
      match releases_of member spec_example with
      | [] => dict_get (IDECode.name member) members = None
      | _ :: _ =>
          ∃ entries,
            dict_get (IDECode.name member) members = Some (JArray entries) ∧
            length entries = length (releases_of member spec_example) ∧
            Forall2 is_release_object (releases_of member spec_example) entries
      end.
Proof.
  assert (Forall known spec_example) as Hknown by all_known.
  split; [exact Hknown|].
  exact (grouped_view_keeps_every_release spec_example Hknown).
Defined.

(** The date strings of the example read back as its dates. *)
Example dates_read_back :
  date_of_iso "2023-11-01" = Some (on 2023 11 1) ∧
  date_of_iso "2024-02-01" = Some (on 2024 2 1) ∧
  date_of_iso "2024-2-1" = None.
Proof. by split_and!. Qed.

(** The grouped view of the specification's example: the release of IIC
    without build identifier is kept, with [null] for the build. *)
Example spec_example_grouped :
  _update_json spec_example =
  Ok (JObject
        [("IIU", JArray [JObject [("version", JString "2023.3");
                                  ("build", JString "233.100");
                                  ("date", JString "2023-11-01")];
                         JObject [("version", JString "2024.1");
                                  ("build", JString "241.1");
                                  ("date", JString "2024-02-01")]]);
         ("IIC", JArray [JObject [("version", JString "2023.3");
                                  ("build", JNull);
                                  ("date", JString "2023-11-01")]])]).
Proof. reflexivity. Qed.

(** C6.  The grouped view is an object with one key per identity that has
    a release.  The key is the identity's member name, which is the code
    of its products, and the value is an array of release objects, one for
    every release of the identity, each with the members [version],
    [build] and [date] of its release: the releases of every product are
    under the name of its identity. *)
Theorem grouped_view_is_keyed_by_name ides :
  Forall known ides →
  ∃ members,
    _update_json ides = Ok (JObject members) ∧
    NoDup members.*1 ∧
    (∀ ide member release,
       ide ∈ ides → IDECode.__getitem__ (code ide) = Ok member →
       release ∈ releases ide →
       IDECode.name member = code ide ∧
       ∃ entries entry,
         dict_get (IDECode.name member) members = Some (JArray entries) ∧
         entry ∈ entries ∧ is_release_object release entry) ∧
    (∀ key value,
       (key, value) ∈ members →
       ∃ member entries,
         key = IDECode.name member ∧ value = JArray entries ∧ entries ≠ [] ∧
         Forall2 is_release_object (releases_of member ides) entries).
Proof.
  intros Hknown.
  destruct (update_json_Ok ides (items_of ides) (releases_known ides Hknown))
    as (members & Hmembers & Hnd & Hget).
  exists members. split_and!; [done..| |].
  - intros ide member release Hide Hmember Hrelease.
    split; [by apply getitem_Ok|].
    assert (release ∈ releases_of member ides) as Hin.
    { unfold releases_of. apply list_elem_of_bind. exists ide. split; [done|].
      apply list_elem_of_filter. split; [|done]. symmetry. by apply getitem_Ok. }
    rewrite Hget, (grouped_items_of ides member Hknown).
    destruct (releases_of member ides) as [|r rs] eqn:Hrs.
    { by apply elem_of_nil in Hin. }
    exists (release_as_json <$> r :: rs), (release_as_json release).
    split_and!; [done| |apply release_as_json_object].
    by apply list_elem_of_fmap_2.
  - intros key value Hin.
    apply (dict_get_elem_NoDup _ _ _ Hnd) in Hin. rewrite Hget in Hin.
    destruct (grouped_nonempty (items_of ides) key) as [member ->].
    { by destruct (grouped (items_of ides) key). }
    rewrite (grouped_items_of ides member Hknown) in Hin.
    pose proof (releases_as_json_objects (releases_of member ides)) as Hobjects.
    exists member, (release_as_json <$> releases_of member ides).
    destruct (releases_of member ides) as [|r rs]; [done|].
    injection Hin as <-. by split_and!.
Qed.

Lemma grouped_view_is_keyed_by_name_witness :
  Forall known spec_example ∧
  ∃ members,
    _update_json spec_example = Ok (JObject members) ∧
    NoDup members.*1 ∧
    (∀ ide member release,
       ide ∈ spec_example → IDECode.__getitem__ (code ide) = Ok member →
       release ∈ releases ide →
       IDECode.name member = code ide ∧
       ∃ entries entry,
         dict_get (IDECode.name member) members = Some (JArray entries) ∧
         entry ∈ entries ∧ is_release_object release entry) ∧
    (∀ key value,
       (key, value) ∈ members →
       ∃ member entries,
         key = IDECode.name member ∧ value = JArray entries ∧ entries ≠ [] ∧
         Forall2 is_release_object (releases_of member spec_example) entries).
Proof.
  assert (Forall known spec_example) as Hknown by all_known.
  split; [exact Hknown|].
  exact (grouped_view_is_keyed_by_name spec_example Hknown).
Defined.

(** The member name is the short code, not the display name the member
    has as its value. *)
Lemma name_is_not_value member : IDECode.name member ≠ IDECode.value member.
Proof. by destruct member. Qed.

(** * The code/name index *)

Lemma string_ltb_asym a b : (a <? b)%string = true → (b <? a)%string = false.
Proof.
  unfold String.ltb. rewrite (String.compare_antisym a b).
  by destruct (b ?= a)%string.
Qed.

Lemma string_ltb_leb a b : (b <? a)%string = false → (a <=? b)%string = true.
Proof.
  unfold String.ltb, String.leb. rewrite (String.compare_antisym a b).
  by destruct (b ?= a)%string.
Qed.

Lemma count_code_entries products c :
  length (filter (fun e => json_string_member "code" e = Some c)
                 (code_and_name <$> products)) =
  length (filter (fun product => code product = c) products).
Proof.
  induction products as [|product products IH]; [done|].
  csimpl. rewrite !filter_cons.
  destruct (decide (code product = c)) as [Hc|Hc].
  - rewrite decide_True by (simpl; congruence). simpl. by rewrite IH.
  - rewrite decide_False by (simpl; congruence). done.
Qed.

Lemma count_code_NoDup products c :
  NoDup (code <$> products) → c ∈ code <$> products →
  length (filter (fun product => code product = c) products) = 1%nat.
Proof.
  induction products as [|product products IH]; csimpl.
  - intros _ Hin. by apply elem_of_nil in Hin.
  - intros [Hfresh Hnd]%NoDup_cons Hin. rewrite filter_cons.
    destruct (decide (code product = c)) as [<-|Hc]; simpl.
    + f_equal. apply length_zero_iff_nil.
      destruct (filter (fun p => code p = code product) products) as [|other rest] eqn:Hf;
        [done|].
      exfalso. apply Hfresh.
      assert (other ∈ filter (fun p => code p = code product) products) as Hother.
      { rewrite Hf. apply list_elem_of_here. }
      apply list_elem_of_filter in Hother as [<- Hother].
      by apply list_elem_of_fmap_2.
    + apply IH; [done|]. apply elem_of_cons in Hin as [Heq|Hin]; [congruence|done].
Qed.

(** C7, as amended.  The index has one entry per fetched product, whether
    or not the registry knows its code, in ascending order of the codes.
    A code has as many entries as fetched products carry it: one when the
    fetched codes are pairwise distinct. *)
Theorem index_has_an_entry_per_product products :
  ∃ index,
    _update_all_codes products = Ok (JArray index) ∧
    index ≡ₚ code_and_name <$> products ∧
    (∀ i e1 e2,
       index !! i = Some e1 → index !! S i = Some e2 →
       ∃ c1 c2, json_string_member "code" e1 = Some c1 ∧
                json_string_member "code" e2 = Some c2 ∧
                (c1 <=? c2)%string = true) ∧
    (∀ c, length (filter (fun e => json_string_member "code" e = Some c) index) =
          length (filter (fun product => code product = c) products)) ∧
    (NoDup (code <$> products) →
     ∀ c, c ∈ code <$> products →
          length (filter (fun e => json_string_member "code" e = Some c) index)
          = 1%nat).
Proof.
  unfold _update_all_codes.
  set (entries := (fun product => [("code", code product); ("name", name product)])
                  <$> products).
  set (key := fun product : list (string * string) => dict_getitem "code" product).
  set (to_json := fun entry : list (string * string) =>
                    JObject (prod_map id JString <$> entry)).
  destruct (sorted_total String.ltb key false entries) as [ordered Hsort].
  { apply Forall_forall. intros entry (product & -> & _)%list_elem_of_fmap.
    by exists (code product). }
  rewrite Hsort. simpl. exists (to_json <$> ordered).
  assert (to_json <$> ordered ≡ₚ code_and_name <$> products) as Hperm.
  { rewrite (sorted_perm _ _ _ _ _ Hsort). unfold entries.
    by rewrite <- list_fmap_compose. }
  assert (∀ c, length (filter (fun e => json_string_member "code" e = Some c)
                              (to_json <$> ordered)) =
               length (filter (fun product => code product = c) products)) as Hcount.
  { intros c. rewrite Hperm. apply count_code_entries. }
  split_and!; [done|done| |done|].
  - intros i e1 e2 H1 H2.
    apply list_lookup_fmap_Some in H1 as (entry1 & -> & H1).
    apply list_lookup_fmap_Some in H2 as (entry2 & -> & H2).
    destruct (sorted_adjacent _ _ _ _ _ _ _ _ string_ltb_asym Hsort H1 H2)
      as (c1 & c2 & Hc1 & Hc2 & Hlt).
    exists c1, c2. unfold key, dict_getitem in Hc1, Hc2. simpl.
    rewrite !dict_get_fmap.
    destruct (dict_get "code" entry1) as [?|]; [|done].
    destruct (dict_get "code" entry2) as [?|]; [|done].
    simplify_eq/=. split_and!; [done..|]. by apply string_ltb_leb.
  - intros Hnd c Hc. rewrite Hcount. by apply count_code_NoDup.
Qed.

Lemma index_has_an_entry_per_product_witness :
  NoDup (code <$> unknown_with_release) ∧
  "XX" ∈ code <$> unknown_with_release ∧
  ∃ index,
    _update_all_codes unknown_with_release = Ok (JArray index) ∧
    length (filter (fun e => json_string_member "code" e = Some "XX") index) = 1%nat.
Proof.
  assert (NoDup (code <$> unknown_with_release)) as Hnd.
  { apply (bool_decide_unpack _). vm_compute. exact I. }
  assert ("XX" ∈ code <$> unknown_with_release) as Hin.
  { apply list_elem_of_further, list_elem_of_here. }
  split; [exact Hnd|]. split; [exact Hin|].
  destruct (index_has_an_entry_per_product unknown_with_release)
    as (index & Hindex & _ & _ & _ & Hone).
  exists index. split; [exact Hindex|]. exact (Hone Hnd "XX" Hin).
Defined.

(** The index of a fetch with a product from outside the registry: the
    three codes in ascending order, the unknown one among them. *)
Example index_of_unknown_with_release :
  _update_all_codes unknown_with_release =
  Ok (JArray [JObject [("code", JString "GO"); ("name", JString "GoLand")];
              JObject [("code", JString "IIU");
                       ("name", JString "IntelliJ IDEA Ultimate")];
              JObject [("code", JString "XX"); ("name", JString "Unknown")]]).
Proof. reflexivity. Qed.

(** The claim as the specification has it, with exactly one entry for every
    distinct fetched code, fails on [shared_code]: the code [AAA] is
    fetched twice and has two entries. *)
Lemma index_repeats_a_shared_code :
  ¬ (∀ products, ∃ index,
       _update_all_codes products = Ok (JArray index) ∧
       ∀ c, c ∈ code <$> products →
            length (filter (fun e => json_string_member "code" e = Some c) index)
            = 1%nat).
Proof.
  intros Hclaim. destruct (Hclaim shared_code) as (index & Hindex & Hone).
  injection Hindex as <-.
  assert (2 = 1)%nat as Habsurd; [|done].
  apply (Hone "AAA"), list_elem_of_here.
Qed.

(** * The registry lookup *)

(** C9.  On every string [IDECode.get] returns: the member whose name the
    string is, or [None] when no member has that name.  It never raises. *)
Theorem get_never_raises (s : string) :
  (∃ member, IDECode.name member = s ∧ IDECode.get s = Ok (Some member)) ∨
  ((∀ member, IDECode.name member ≠ s) ∧ IDECode.get s = Ok None).
Proof.
  unfold IDECode.get.
  destruct (IDECode.__getitem__ s) as [member|e] eqn:Hs.
  - left. exists member. split; [by apply getitem_Ok|done].
  - right. by apply getitem_Err in Hs as [-> Hnone].
Qed.

Example get_examples :
  IDECode.get "IIU" = Ok (Some IDECode.IIU) ∧
  IDECode.get "iiu" = Ok None ∧
  IDECode.get "IntelliJ IDEA Ultimate" = Ok None ∧
  IDECode.get "" = Ok None.
Proof. by repeat split. Qed.

(** * The unguarded lookup of the generator *)

Lemma get_unknown s : IDECode.get s = Ok None → IDECode.__getitem__ s = Err (KeyError s).
Proof.
  unfold IDECode.get. destruct (IDECode.__getitem__ s) as [member|e] eqn:Hs; [done|].
  by apply getitem_Err in Hs as [-> _].
Qed.

Lemma known_ides_filter products :
  ∃ ides, known_ides products = Ok ides ∧ Forall known ides ∧ ides ⊆ products.
Proof.
  induction products as [|product products (ides & Hides & Hknown & Hsub)]; simpl.
  - exists []. by split_and!.
  - destruct (IDECode.get (code product)) as [[member|]|e] eqn:Hget; simpl.
    + rewrite Hides. simpl. exists (product :: ides). split_and!; [done| |].
      * constructor; [by exists member|done].
      * intros x [->|Hx]%elem_of_cons; apply elem_of_cons; auto.
    + rewrite Hides. simpl. exists ides. split_and!; [done..|].
      intros x Hx. apply elem_of_cons; auto.
    + exfalso. unfold IDECode.get in Hget.
      destruct (IDECode.__getitem__ (code product)) as [member|e'] eqn:Hs; [done|].
      by apply getitem_Err in Hs as [-> _].
Qed.

Lemma releases_cons ide ides :
  IDEList.releases (ide :: ides) =
  IDEList.of_product ide (releases ide) (IDEList.releases ides).
Proof. done. Qed.

Lemma items_of_cons ide ides :
  items_of (ide :: ides) =
  match IDECode.__getitem__ (code ide) with
  | Ok member => pair member <$> releases ide
  | Err _ => []
  end ++ items_of ides.
Proof. unfold items_of. apply bind_cons. Qed.

Lemma of_product_known_run ide member rs rest :
  IDECode.__getitem__ (code ide) = Ok member →
  yielded (IDEList.of_product ide rs rest) = (pair member <$> rs) ++ yielded rest ∧
  raised (IDEList.of_product ide rs rest) = raised rest.
Proof.
  intros Hm. induction rs as [|r rs [IHy IHr]]; simpl; [done|].
  rewrite Hm. simpl. by rewrite IHy.
Qed.

Lemma releases_app before after :
  Forall known before →
  yielded (IDEList.releases (before ++ after)) =
    items_of before ++ yielded (IDEList.releases after) ∧
  raised (IDEList.releases (before ++ after)) = raised (IDEList.releases after).
Proof.
  induction 1 as [|ide before [member Hm%get_known] _ [IHy IHr]]; [done|].
  rewrite <- app_comm_cons, releases_cons, items_of_cons, Hm.
  destruct (of_product_known_run ide member (releases ide)
              (IDEList.releases (before ++ after)) Hm) as [-> ->].
  by rewrite IHy, app_assoc.
Qed.

Section UnguardedLookup.
Context {Key : Type} (Version : string → option Key) (lt : Key → Key → bool).

Lemma map_version_no_KeyError ides key :
  Forall known ides →
  _map_version_to_build_numbers Version lt ides ≠ Err (KeyError key).
Proof.
  intros Hiter%releases_known. unfold _map_version_to_build_numbers. rewrite Hiter.
  destruct (for_each_collect_total (items_of ides) []) as [unsorted ->]. simpl.
  destruct (sorted lt (version_key Version) true unsorted) as [rows|e] eqn:Hsort;
    simpl; [done|].
  by apply sorted_Err in Hsort as (item & _ & [_ ->]%version_key_Err).
Qed.

Lemma construct_ide_table_no_KeyError ides key :
  Forall known ides → _construct_ide_table Version lt ides ≠ Err (KeyError key).
Proof.
  intros Hknown. unfold _construct_ide_table.
  destruct (_map_version_to_build_numbers Version lt ides) as [table|e] eqn:Hm;
    simpl; [done|].
  intros [= ->]. by apply (map_version_no_KeyError ides key).
Qed.

Lemma update_json_known ides : Forall known ides → ∃ value, _update_json ides = Ok value.
Proof.
  intros Hiter%releases_known.
  destruct (update_json_Ok ides _ Hiter) as (members & -> & _). by eauto.
Qed.

Lemma update_all_codes_total products : ∃ value, _update_all_codes products = Ok value.
Proof.
  unfold _update_all_codes.
  destruct (sorted_total String.ltb
              (fun product : list (string * string) => dict_getitem "code" product) false
              ((fun product => [("code", code product); ("name", name product)])
               <$> products)) as [ordered ->]; simpl; [|by eauto].
  apply Forall_forall. intros entry (product & -> & _)%list_elem_of_fmap.
  by exists (code product).
Qed.

(** A run of [main] never ends in a [KeyError]: the products it hands to
    the generator are known. *)
Lemma main_no_KeyError products files key :
  (main Version lt products files).2 ≠ Some (KeyError key).
Proof.
  unfold main.
  destruct (known_ides_filter products) as (ides & -> & Hknown & _).
  destruct (update_all_codes_total products) as [index ->]. simpl.
  destruct (_construct_ide_table Version lt ides) as [table|e] eqn:Htable; simpl.
  - by destruct (update_json_known ides Hknown) as [value ->].
  - intros [= ->]. by apply (construct_ide_table_no_KeyError ides key).
Qed.

(** C10, as amended.  The generator looks a product's code up once for
    every release of the product.  [main] hands it products whose code the
    registry knows, and for those the lookup never fails: the generator
    raises nothing, and neither consumer ends in a [KeyError].  For a
    product with an unknown code the generator raises [KeyError] at the
    product's first release, after the pairs of the products before it;
    such a product without releases is passed over and nothing is
    raised. *)
Theorem lookup_is_safe_for_known_codes :
  (∀ products, ∃ ides, known_ides products = Ok ides ∧ Forall known ides) ∧
  (∀ ides,
     Forall known ides →
     IDEList.releases ides = iter (items_of ides) ∧
     (∀ key, _map_version_to_build_numbers Version lt ides ≠ Err (KeyError key)) ∧
     (∀ key, _construct_ide_table Version lt ides ≠ Err (KeyError key)) ∧
     (∃ value, _update_json ides = Ok value)) ∧
  (∀ before ide after,
     Forall known before → IDECode.get (code ide) = Ok None →
     releases ide ≠ [] →
     yielded (IDEList.releases (before ++ ide :: after)) = items_of before ∧
     raised (IDEList.releases (before ++ ide :: after)) = Some (KeyError (code ide))) ∧
  (∀ before ide after,
     releases ide = [] →
     IDEList.releases (before ++ ide :: after) = IDEList.releases (before ++ after)).
Proof.
  split_and!.
  - intros products. destruct (known_ides_filter products) as (ides & ? & ? & _).
    by exists ides.
  - intros ides Hknown. split_and!.
    + by apply releases_known.
    + intros key. by apply map_version_no_KeyError.
    + intros key. by apply construct_ide_table_no_KeyError.
    + by apply update_json_known.
  - intros before ide after Hknown Hunknown%get_unknown Hreleases.
    destruct (releases_app before (ide :: after) Hknown) as [-> ->].
    unfold IDEList.releases. simpl.
    destruct (releases ide) as [|r rs]; [done|]. simpl. rewrite Hunknown. simpl.
    by rewrite app_nil_r.
  - intros before ide after Hreleases. unfold IDEList.releases.
    rewrite !foldr_app. simpl. by rewrite Hreleases.
Qed.
End UnguardedLookup.

Lemma lookup_is_safe_for_known_codes_witness :
  Forall known spec_example ∧
  IDEList.releases spec_example = iter (items_of spec_example) ∧
  IDECode.get "XX" = Ok None ∧
  yielded (IDEList.releases unknown_with_release) =
    [(IDECode.IIU,
      {| version := "2024.1"; build := Some "241.1"; date := on 2024 4 4 |})] ∧
  raised (IDEList.releases unknown_with_release) = Some (KeyError "XX").
Proof.
  assert (Forall known spec_example) as Hknown by all_known.
  destruct (lookup_is_safe_for_known_codes packaging.parse packaging.lt)
    as (_ & Hsafe & Hraise & _).
  split; [exact Hknown|]. split; [exact (proj1 (Hsafe spec_example Hknown))|].
  split; [reflexivity|].
  refine (Hraise [_] {| code := "XX"; name := "Unknown"; releases := [_] |} [_] _ _ _).
  - all_known.
  - reflexivity.
  - discriminate.
Defined.

(** The generator of [unknown_without_releases] stops at once. *)
Example unknown_without_releases_run :
  IDECode.get "XX" = Ok None ∧
  IDEList.releases unknown_without_releases = StopIteration.
Proof. by split. Qed.

(** The claim as the specification has it, that the generator raises
    whenever a product has an unknown code, fails on
    [unknown_without_releases]: the product has no release, so its code is
    never looked up. *)
Lemma unknown_code_without_release_raises_nothing :
  ¬ (∀ ides,
       (∃ ide, ide ∈ ides ∧ IDECode.get (code ide) = Ok None) →
       ∃ e, raised (IDEList.releases ides) = Some e).
Proof.
  intros Hclaim. destruct (Hclaim unknown_without_releases) as [e He].
  - eexists. split; [apply list_elem_of_here|reflexivity].
  - discriminate He.
Qed.

(** * More about the registry and the filter of [main] *)

(** X1.  The registry is keyed by the member names and by nothing else:
    looking a member's name up gives the member back, so different
    members have different names, and looking its display name up finds
    nothing, with [KeyError] from the plain lookup and [None] from [get]. *)
Theorem registry_is_keyed_by_name member :
  IDECode.__getitem__ (IDECode.name member) = Ok member ∧
  IDECode.get (IDECode.name member) = Ok (Some member) ∧
  IDECode.__getitem__ (IDECode.value member) = Err (KeyError (IDECode.value member)) ∧
  IDECode.get (IDECode.value member) = Ok None ∧
  ∀ other, IDECode.name other = IDECode.name member → other = member.
Proof.
  split_and!; [by destruct member..|]. intros other. apply name_inj.
Qed.

Lemma members_complete member : member ∈ IDECode.members.
Proof.
  destruct member;
    repeat first [apply list_elem_of_here | apply list_elem_of_further].
Qed.

Lemma get_Some_iff s :
  (∃ member, IDECode.get s = Ok (Some member)) ↔ s ∈ IDECode.__members__.*1.
Proof.
  split.
  - intros [member <-%get_known%getitem_Ok].
    apply list_elem_of_fmap. exists (IDECode.name member, member). split; [done|].
    unfold IDECode.__members__. apply list_elem_of_fmap. exists member.
    split; [done|]. apply members_complete.
  - intros ([key member] & -> & Hin)%list_elem_of_fmap.
    unfold IDECode.__members__ in Hin.
    apply list_elem_of_fmap in Hin as (member' & [= -> ->] & _).
    exists member'. apply get_known, getitem_name.
Qed.

(** X2.  The list comprehension of [main] never fails; it keeps, in the
    fetched order, exactly the products whose code is a member name, and
    applied to its own result it changes nothing. *)
Theorem known_ides_is_a_filter products :
  known_ides products =
    Ok (filter (fun product => code product ∈ IDECode.__members__.*1) products) ∧
  known_ides (filter (fun product => code product ∈ IDECode.__members__.*1) products) =
    Ok (filter (fun product => code product ∈ IDECode.__members__.*1) products).
Proof.
  assert (∀ l, known_ides l =
               Ok (filter (fun product => code product ∈ IDECode.__members__.*1) l))
    as Hfilter.
  { induction l as [|product l IH]; [done|]. rewrite filter_cons.
    destruct (decide (code product ∈ IDECode.__members__.*1)) as [Hin|Hnin].
    - apply get_Some_iff in Hin as [member Hget]. simpl. by rewrite Hget, IH.
    - destruct (IDECode.get (code product)) as [[member|]|e] eqn:Hget.
      + exfalso. apply Hnin, get_Some_iff. by exists member.
      + simpl. by rewrite Hget, IH.
      + exfalso. unfold IDECode.get in Hget.
        destruct (IDECode.__getitem__ (code product)) as [member|e'] eqn:Hs; [done|].
        by apply getitem_Err in Hs as [-> _]. }
  split; [apply Hfilter|]. rewrite Hfilter. f_equal.
  rewrite list_filter_filter. apply list_filter_iff. tauto.
Qed.

(** The filter on a fetch with an unknown product. *)
Example known_ides_of_fetched :
  known_ides fetched =
  Ok [ {| code := "WS"; name := "WebStorm"; releases := [] |};
       {| code := "CL"; name := "CLion"; releases := [] |} ].
Proof. reflexivity. Qed.

(** * The table view *)

Section TableView.
Context {Key : Type} (Version : string → option Key) (lt : Key → Key → bool).

Lemma row_lookup (v : string) (cells : list (IDECode.t * option string))
    (ms : list IDECode.t) j member :
  ms !! j = Some member →
  (Some v :: ((fun code => mjoin (dict_get code cells)) <$> ms)) !! S j
  = Some (mjoin (dict_get member cells)).
Proof. intros Hj. rewrite lookup_cons, list_lookup_fmap, Hj. done. Qed.

(** The frame of a successful run, row by row. *)
Lemma construct_ide_table_Ok ides df :
  _construct_ide_table Version lt ides = Ok df →
  ∃ table,
    _map_version_to_build_numbers Version lt ides = Ok table ∧
    columns df = "Version" :: (IDECode.name <$> IDECode.members) ∧
    rows df =
      (fun item : string * list (IDECode.t * option string) =>
         Some item.1 :: ((fun code => mjoin (dict_get code item.2)) <$> IDECode.members))
      <$> table.
Proof.
  unfold _construct_ide_table.
  destruct (_map_version_to_build_numbers Version lt ides) as [table|]; simpl; [|done].
  intros [= <-]. by exists table.
Qed.

(** The table of a successful run has the column [Version] and one
    column per member, in declaration order, and one row per row of the
    matrix, in the same order.  A row has a cell for every column: first
    the version, then for every member its build identifier in the matrix
    row, or a blank. *)
Theorem table_follows_the_matrix ides df :
  _construct_ide_table Version lt ides = Ok df →
  ∃ table,
    _map_version_to_build_numbers Version lt ides = Ok table ∧
    columns df = "Version" :: (IDECode.name <$> IDECode.members) ∧
    length (rows df) = length table ∧
    ∀ i row,
      rows df !! i = Some row →
      length row = length (columns df) ∧
      ∃ v cells,
        table !! i = Some (v, cells) ∧ row !! 0%nat = Some (Some v) ∧
        ∀ j member,
          IDECode.members !! j = Some member →
          row !! S j = Some (mjoin (dict_get member cells)).
Proof.
  intros (table & Htable & Hcolumns & Hrows)%construct_ide_table_Ok.
  exists table. split_and!; [done..| |].
  - by rewrite Hrows, length_fmap.
  - intros i row Hrow. rewrite Hrows in Hrow.
    apply list_lookup_fmap_Some in Hrow as ([v cells] & -> & Hi).
    split; [by rewrite Hcolumns|].
    exists v, cells. split_and!; [done..|].
    intros j member Hj. by apply row_lookup.
Qed.

(** X3.  Read against the input: in the row of a version, the column of a
    member holds the build identifier of the last release of that member
    and version that has one, and a blank when there is none; and every
    release with a build identifier has the row of its version. *)
Theorem table_cell_is_the_last_build ides items df :
  IDEList.releases ides = iter items →
  _construct_ide_table Version lt ides = Ok df →
  (∀ i row v,
     rows df !! i = Some row → row !! 0%nat = Some (Some v) →
     ∀ j member,
       IDECode.members !! j = Some member →
       row !! S j = Some (last_build items v member)) ∧
  (∀ member release number,
     (member, release) ∈ items → build release = Some number →
     ∃ row, row ∈ rows df ∧ row !! 0%nat = Some (Some (version release))).
Proof.
  intros Hiter (table & Htable & _ & Hrows)%construct_ide_table_Ok.
  pose proof Htable as (unsorted & _ & _ & _ & Hperm & [Hnd _])%map_version_Ok.
  rewrite <- Hperm in Hnd. split.
  - intros i row v Hrow Hv j member Hj. rewrite Hrows in Hrow.
    apply list_lookup_fmap_Some in Hrow as ([v' cells] & -> & Hi).
    injection Hv as ->. rewrite (row_lookup _ _ _ _ _ Hj). f_equal.
    pose proof (map_version_cell Version lt ides items table v member Hiter Htable)
      as Hcell.
    unfold cell in Hcell.
    rewrite (dict_get_elem_NoDup v cells table Hnd) in Hcell
      by (by eapply list_elem_of_lookup_2).
    simpl in *. rewrite Hcell. by destruct (last_build items v member).
  - intros member release number Hin Hb.
    destruct (last_build_present items member release number Hin Hb) as [found Hfound].
    pose proof (map_version_cell Version lt ides items table (version release) member
                  Hiter Htable) as Hcell.
    rewrite Hfound in Hcell. unfold cell in Hcell.
    destruct (dict_get (version release) table) as [cells|] eqn:Hcells; [|done].
    apply dict_get_Some_elem in Hcells.
    eexists. split.
    + rewrite Hrows. apply list_elem_of_fmap. eexists. split; [done|exact Hcells].
    + done.
Qed.

(** X4.  No row of the table is blank: next to the version it has a build
    identifier in the column of some member. *)
Theorem table_has_no_blank_row ides df row :
  _construct_ide_table Version lt ides = Ok df → row ∈ rows df →
  ∃ v j member number,
    row !! 0%nat = Some (Some v) ∧ IDECode.members !! j = Some member ∧
    row !! S j = Some (Some number).
Proof.
  intros (table & Htable & _ & Hrows)%construct_ide_table_Ok Hrow.
  rewrite Hrows in Hrow. apply list_elem_of_fmap in Hrow as ([v cells] & -> & Hin).
  apply map_version_Ok in Htable as (unsorted & _ & _ & _ & Hperm & [_ Hinv]).
  rewrite <- Hperm in Hinv. rewrite Forall_forall in Hinv.
  destruct (Hinv _ Hin) as (Hne & _ & Hcells). simpl in Hne, Hcells.
  destruct cells as [|[member x] cells]; [done|].
  apply Forall_cons in Hcells as [[number Hx] _]. simpl in Hx. subst x.
  destruct (proj1 (list_elem_of_lookup _ _) (members_complete member)) as [j Hj].
  exists v, j, member, number. split_and!; [done..|].
  etrans; [apply (row_lookup v ((member, Some number) :: cells) _ _ _ Hj)|].
  simpl. by rewrite decide_True.
Qed.

(** X5.  The matrix is empty exactly when no release of the input has a
    build identifier; the table then consists of its header. *)
Theorem matrix_is_empty_without_builds ides items :
  IDEList.releases ides = iter items →
  (_map_version_to_build_numbers Version lt ides = Ok [] ↔
   Forall (fun item : IDECode.t * Release => build item.2 = None) items) ∧
  (Forall (fun item : IDECode.t * Release => build item.2 = None) items →
   _construct_ide_table Version lt ides =
   Ok {| columns := "Version" :: (IDECode.name <$> IDECode.members); rows := [] |}).
Proof.
  intros Hiter.
  assert (Forall (fun item : IDECode.t * Release => build item.2 = None) items →
          _map_version_to_build_numbers Version lt ides = Ok []) as Hempty.
  { intros Hnone. unfold _map_version_to_build_numbers. rewrite Hiter. clear Hiter.
    assert (for_each (iter items) collect [] = Ok []) as ->; [|done].
    induction Hnone as [|[member release] items Hb _ IH]; [done|].
    simpl in *. by rewrite collect_closed, Hb. }
  split; [split; [|done]|].
  - intros Htable. apply Forall_forall. intros [member release] Hin. simpl.
    destruct (build release) as [number|] eqn:Hb; [|done]. exfalso.
    destruct (last_build_present items member release number Hin Hb) as [found Hfound].
    pose proof (map_version_cell Version lt ides items [] (version release) member
                  Hiter Htable) as Hcell.
    by rewrite Hfound in Hcell.
  - intros Hnone. unfold _construct_ide_table. by rewrite (Hempty Hnone).
Qed.

Lemma for_each_raised {A S : Type} (it : Iterator A) (body : S → A → result S) s e :
  (∀ s a, ∃ s', body s a = Ok s') → raised it = Some e → for_each it body s = Err e.
Proof.
  intros Htotal. revert s. induction it as [|a rest IH|e']; intros s; simpl.
  - done.
  - intros Hraised. destruct (Htotal s a) as [s' ->]. simpl. by apply IH.
  - by intros [= ->].
Qed.

(** X6.  Handed a list that [main] has not filtered, each consumer of the
    generator ends in the [KeyError] of the first product with an unknown
    code that has a release.  In the aggregator this error comes before
    any version is parsed, whatever the versions are. *)
Theorem unfiltered_list_ends_in_KeyError before ide after :
  Forall known before → IDECode.get (code ide) = Ok None → releases ide ≠ [] →
  _map_version_to_build_numbers Version lt (before ++ ide :: after)
    = Err (KeyError (code ide)) ∧
  _construct_ide_table Version lt (before ++ ide :: after)
    = Err (KeyError (code ide)) ∧
  _update_json (before ++ ide :: after) = Err (KeyError (code ide)).
Proof.
  intros Hknown Hunknown%get_unknown Hreleases.
  assert (raised (IDEList.releases (before ++ ide :: after))
          = Some (KeyError (code ide))) as Hraised.
  { destruct (releases_app before (ide :: after) Hknown) as [_ ->].
    rewrite releases_cons. destruct (releases ide) as [|r rs]; [done|]. simpl.
    by rewrite Hunknown. }
  assert (_map_version_to_build_numbers Version lt (before ++ ide :: after)
          = Err (KeyError (code ide))) as Hmap.
  { unfold _map_version_to_build_numbers.
    rewrite (for_each_raised _ collect [] (KeyError (code ide))); [done| |done].
    intros table [member release]. rewrite collect_closed. by eauto. }
  split_and!; [done| |].
  - unfold _construct_ide_table. by rewrite Hmap.
  - unfold _update_json.
    rewrite (for_each_raised _ append_release [] (KeyError (code ide))); [done| |done].
    intros d [member release]. rewrite append_release_closed. by eauto.
Qed.
End TableView.

Lemma table_follows_the_matrix_witness :
  _construct_ide_table packaging.parse packaging.lt spec_example
    = Ok spec_example_table ∧
  ∃ table,
    _map_version_to_build_numbers packaging.parse packaging.lt spec_example
      = Ok table ∧
    length (rows spec_example_table) = length table.
Proof.
  split; [reflexivity|].
  destruct (table_follows_the_matrix packaging.parse packaging.lt spec_example
              spec_example_table eq_refl) as (table & Htable & _ & Hlength & _).
  exists table. split; [exact Htable|exact Hlength].
Defined.

Lemma table_cell_is_the_last_build_witness :
  IDEList.releases spec_example = iter (items_of spec_example) ∧
  _construct_ide_table packaging.parse packaging.lt spec_example
    = Ok spec_example_table ∧
  [Some "2024.1"; None; None; None; Some "241.1"; None; None; None; None; None;
   None; None; None; None] !! 4%nat
  = Some (last_build (items_of spec_example) "2024.1" IDECode.IIU).
Proof.
  split; [reflexivity|]. split; [reflexivity|].
  exact (proj1 (table_cell_is_the_last_build packaging.parse packaging.lt spec_example
                  (items_of spec_example) spec_example_table eq_refl eq_refl)
           0%nat _ "2024.1" eq_refl eq_refl 3%nat IDECode.IIU eq_refl).
Defined.

Lemma table_has_no_blank_row_witness :
  _construct_ide_table packaging.parse packaging.lt spec_example
    = Ok spec_example_table ∧
  ∃ v j member number,
    [Some "2023.3"; None; None; None; Some "233.100"; None; None; None; None; None;
     None; None; None; None] !! 0%nat = Some (Some v) ∧
    IDECode.members !! j = Some member ∧
    [Some "2023.3"; None; None; None; Some "233.100"; None; None; None; None; None;
     None; None; None; None] !! S j = Some (Some number).
Proof.
  split; [reflexivity|].
  apply (table_has_no_blank_row packaging.parse packaging.lt spec_example
           spec_example_table); [reflexivity|].
  apply list_elem_of_further, list_elem_of_here.
Defined.

Lemma matrix_is_empty_without_builds_witness :
  IDEList.releases no_builds = iter (items_of no_builds) ∧
  Forall (fun item : IDECode.t * Release => build item.2 = None) (items_of no_builds) ∧
  _map_version_to_build_numbers packaging.parse packaging.lt no_builds = Ok [].
Proof.
  assert (Forall (fun item : IDECode.t * Release => build item.2 = None)
                 (items_of no_builds)) as Hnone by each_release.
  split; [reflexivity|]. split; [exact Hnone|].
  exact (proj2 (proj1 (matrix_is_empty_without_builds packaging.parse packaging.lt
                         no_builds (items_of no_builds) eq_refl)) Hnone).
Defined.

Lemma unfiltered_list_ends_in_KeyError_witness :
  IDECode.get "XX" = Ok None ∧
  _map_version_to_build_numbers packaging.parse packaging.lt unknown_with_release
    = Err (KeyError "XX") ∧
  _construct_ide_table packaging.parse packaging.lt unknown_with_release
    = Err (KeyError "XX") ∧
  _update_json unknown_with_release = Err (KeyError "XX").
Proof.
  split; [reflexivity|].
  refine (unfiltered_list_ends_in_KeyError packaging.parse packaging.lt
            [_] {| code := "XX"; name := "Unknown"; releases := [_] |} [_] _ _ _).
  - all_known.
  - reflexivity.
  - discriminate.
Defined.

(** * The order of the whole matrix *)

Lemma StronglySorted_lookup {B : Type} (R : B → B → Prop) (l : list B) i j a b :
  StronglySorted R l → (i < j)%nat → l !! i = Some a → l !! j = Some b → R a b.
Proof.
  intros Hl. revert i j. induction Hl as [|x l Hl IH Hx]; intros i j Hij; [done|].
  destruct j as [|j]; [lia|]. destruct i as [|i]; simpl.
  - intros [= ->] Hb. rewrite Forall_forall in Hx. apply Hx.
    by eapply list_elem_of_lookup_2.
  - apply IH. lia.
Qed.

Lemma sorted_ordered {A K : Type} (lt : K → K → bool) (key : A → result K) reverse
    (l l' : list A) i j a b :
  (∀ x y, lt x y = true → lt y x = false) →
  (∀ x y z, lt x y = false → lt y z = false → lt x z = false) →
  sorted lt key reverse l = Ok l' → (i < j)%nat →
  l' !! i = Some a → l' !! j = Some b →
  ∃ ka kb, key a = Ok ka ∧ key b = Ok kb ∧
           (if reverse then lt ka kb else lt kb ka) = false.
Proof.
  intros Hasym Htrans. unfold sorted.
  destruct (traverse key l) as [ks|] eqn:Hks; simpl; [|done].
  intros [= <-] Hij Ha Hb.
  apply traverse_Ok, zip_keys in Hks as [_ Hkeys].
  set (before := if reverse then flip lt else lt) in *.
  assert (∀ x y, before x y = true → before y x = false) as Hbefore.
  { unfold before. destruct reverse; unfold flip; auto. }
  assert (Transitive (fun p q : K * A => before q.1 p.1 = false)) as Hbtrans.
  { intros p q r. unfold before. destruct reverse; unfold flip; eauto. }
  pose proof (Sorted_StronglySorted _ _
                (sort_keyed_Sorted before (zip ks l) Hbefore)) as Hsorted.
  rewrite <- (sort_keyed_perm before) in Hkeys.
  apply list_lookup_fmap_Some in Ha as ([ka a'] & -> & Ha).
  apply list_lookup_fmap_Some in Hb as ([kb b'] & -> & Hb).
  pose proof (StronglySorted_lookup _ _ _ _ _ _ Hsorted Hij Ha Hb) as Hab.
  rewrite Forall_forall in Hkeys.
  exists ka, kb. split_and!.
  - apply (Hkeys (ka, a')). by eapply list_elem_of_lookup_2.
  - apply (Hkeys (kb, b')). by eapply list_elem_of_lookup_2.
  - simpl in Hab. unfold before in Hab. by destruct reverse.
Qed.

Lemma tuple_not_lt_trans a b c :
  packaging.tuple_lt a b = false → packaging.tuple_lt b c = false →
  packaging.tuple_lt a c = false.
Proof.
  intros Hab Hbc. destruct (packaging.tuple_lt a c) eqn:Hac; [|done].
  destruct (decide (a = b)) as [->|Hne]; [congruence|].
  pose proof (tuple_lt_connex a b Hab Hne) as Hba.
  by rewrite (tuple_lt_trans b a c Hba Hac) in Hbc.
Qed.

(** X7.  The matrix descends as a whole, not only from row to row: no row
    has a version below the version of a row after it, so the first row
    carries a latest version. *)
Theorem no_row_is_below_a_later_row ides table i j v1 v2 :
  _map_version_to_build_numbers packaging.parse packaging.lt ides = Ok table →
  (i < j)%nat → table.*1 !! i = Some v1 → table.*1 !! j = Some v2 →
  ∃ k1 k2, packaging.parse v1 = Some k1 ∧ packaging.parse v2 = Some k2 ∧
           packaging.lt k1 k2 = false.
Proof.
  intros (unsorted & _ & _ & Hsort & _)%map_version_Ok Hij H1 H2.
  apply list_lookup_fmap_Some in H1 as ([v1' row1] & -> & H1).
  apply list_lookup_fmap_Some in H2 as ([v2' row2] & -> & H2).
  assert (∀ x y z, packaging.lt x y = false → packaging.lt y z = false →
                   packaging.lt x z = false) as Htrans.
  { intros x y z. apply tuple_not_lt_trans. }
  destruct (sorted_ordered packaging.lt (version_key packaging.parse) true
              unsorted table i j _ _ version_lt_asym Htrans Hsort Hij H1 H2)
    as (k1 & k2 & Hk1%version_key_Ok & Hk2%version_key_Ok & Hlt).
  by exists k1, k2.
Qed.

Lemma no_row_is_below_a_later_row_witness :
  _map_version_to_build_numbers packaging.parse packaging.lt spec_example =
    Ok [("2024.1", [(IDECode.IIU, Some "241.1")]);
        ("2023.3", [(IDECode.IIU, Some "233.100")])] ∧
  ∃ k1 k2, packaging.parse "2024.1" = Some k1 ∧ packaging.parse "2023.3" = Some k2 ∧
           packaging.lt k1 k2 = false.
Proof.
  split; [reflexivity|].
  apply (no_row_is_below_a_later_row spec_example
           [("2024.1", [(IDECode.IIU, Some "241.1")]);
            ("2023.3", [(IDECode.IIU, Some "233.100")])]
           0%nat 1%nat "2024.1" "2023.3");
    [reflexivity|lia|reflexivity|reflexivity].
Defined.

(** * The run of [main] *)

Lemma dict_set_same {K V : Type} `{EqDecision K} (k : K) (v : V) d :
  dict_get k d = Some v → dict_set k v d = d.
Proof.
  induction d as [|[k0 v0] d IH]; simpl; [done|].
  case_decide.
  - by intros [= ->].
  - intros Hget. by rewrite IH.
Qed.

Lemma items_of_known_ides products ides :
  known_ides products = Ok ides → items_of ides = items_of products.
Proof.
  revert ides. induction products as [|product products IH]; intros ides Hides.
  - by injection Hides as <-.
  - simpl in Hides.
    destruct (IDECode.get (code product)) as [[member|]|e] eqn:Hget;
      simpl in Hides; [| |done].
    + destruct (known_ides products) as [ides'|]; simpl in Hides; [|done].
      injection Hides as <-. rewrite !items_of_cons. by rewrite (IH ides').
    + destruct (known_ides products) as [ides'|]; simpl in Hides; [|done].
      injection Hides as <-. rewrite items_of_cons, (get_unknown _ Hget).
      by rewrite (IH ides').
Qed.

Section MainFacts.
Context {Key : Type} (Version : string → option Key) (lt : Key → Key → bool).

(** The aggregator fails in one way only when the generator does not. *)
Lemma map_version_Err ides items e :
  IDEList.releases ides = iter items →
  _map_version_to_build_numbers Version lt ides = Err e →
  ∃ v, e = InvalidVersion v ∧ Version v = None ∧
       ∃ member release number,
         (member, release) ∈ items ∧ version release = v ∧
         build release = Some number.
Proof.
  intros Hiter. unfold _map_version_to_build_numbers. rewrite Hiter.
  destruct (for_each_collect_total items []) as [unsorted Hloop]. rewrite Hloop. simpl.
  destruct (sorted lt (version_key Version) true unsorted) as [rows|e'] eqn:Hsort;
    simpl; [done|].
  intros [= ->].
  apply sorted_Err in Hsort as ([v row] & Hrow & [Hv ->]%version_key_Err).
  exists v. split_and!; [done..|].
  apply (table_keys items unsorted v Hloop). apply list_elem_of_fmap. by exists (v, row).
Qed.

(** The three steps of [main] after the filter. *)
Lemma main_steps products files :
  ∃ ides index grouped,
    known_ides products = Ok ides ∧ Forall known ides ∧
    _update_all_codes products = Ok index ∧ _update_json ides = Ok grouped ∧
    main Version lt products files =
    match _construct_ide_table Version lt ides with
    | Ok table =>
        (dict_set "builds.json" (JsonFile grouped)
           (dict_set "build-numbers.md" (MarkdownFile table)
              (dict_set "all-product-codes.json" (JsonFile index) files)), None)
    | Err e => (dict_set "all-product-codes.json" (JsonFile index) files, Some e)
    end.
Proof.
  destruct (known_ides_filter products) as (ides & Hides & Hknown & _).
  destruct (update_all_codes_total products) as [index Hindex].
  destruct (update_json_known ides Hknown) as [grouped Hgrouped].
  exists ides, index, grouped. split_and!; [done..|].
  unfold main. rewrite Hides, Hindex, Hgrouped. simpl.
  by destruct (_construct_ide_table Version lt ides).
Qed.

(** X8.  A run of [main] can end in one exception only: the
    [InvalidVersion] of a version the parser rejects, found on a release
    with a build identifier of a product with a known code.  The index of
    codes and names has been written by then; the other two files are as
    they were. *)
Theorem main_fails_only_on_a_rejected_version products files e :
  (main Version lt products files).2 = Some e →
  ∃ v index,
    e = InvalidVersion v ∧ Version v = None ∧
    (∃ member release number,
       (member, release) ∈ items_of products ∧ version release = v ∧
       build release = Some number) ∧
    _update_all_codes products = Ok index ∧
    (main Version lt products files).1
      = dict_set "all-product-codes.json" (JsonFile index) files ∧
    ∀ path, path ≠ "all-product-codes.json" →
            dict_get path (main Version lt products files).1 = dict_get path files.
Proof.
  destruct (main_steps products files)
    as (ides & index & grouped & Hides & Hknown & Hindex & _ & ->).
  unfold _construct_ide_table.
  destruct (_map_version_to_build_numbers Version lt ides) as [table|e'] eqn:Hmap;
    simpl; [done|].
  intros [= ->].
  destruct (map_version_Err ides (items_of ides) e (releases_known ides Hknown) Hmap)
    as (v & -> & Hv & Hrelease).
  rewrite (items_of_known_ides products ides Hides) in Hrelease.
  exists v, index. split_and!; [done..|].
  intros path Hpath. by rewrite dict_get_set_ne.
Qed.

(** X9.  When the parser accepts the version of every release with a
    build identifier of the products with known codes, [main] ends without
    exception and has written its three files: the index of all fetched
    products, the table and the grouped view of the known ones.  Every
    other file is as it was. *)
Theorem main_writes_three_files products files :
  Forall (fun item : IDECode.t * Release =>
            is_Some (build item.2) → is_Some (Version (version item.2)))
         (items_of products) →
  ∃ ides index table grouped,
    known_ides products = Ok ides ∧
    _update_all_codes products = Ok index ∧
    _construct_ide_table Version lt ides = Ok table ∧
    _update_json ides = Ok grouped ∧
    (main Version lt products files).2 = None ∧
    dict_get "all-product-codes.json" (main Version lt products files).1
      = Some (JsonFile index) ∧
    dict_get "build-numbers.md" (main Version lt products files).1
      = Some (MarkdownFile table) ∧
    dict_get "builds.json" (main Version lt products files).1
      = Some (JsonFile grouped) ∧
    ∀ path,
      path ∉ ["all-product-codes.json"; "build-numbers.md"; "builds.json"] →
      dict_get path (main Version lt products files).1 = dict_get path files.
Proof.
  intros Hparse.
  destruct (main_steps products files)
    as (ides & index & grouped & Hides & Hknown & Hindex & Hgrouped & ->).
  rewrite <- (items_of_known_ides products ides Hides) in Hparse.
  destruct (map_version_total Version lt ides (items_of ides)
              (releases_known ides Hknown) Hparse) as [matrix Hmatrix].
  destruct (_construct_ide_table Version lt ides) as [table|e] eqn:Htable.
  - exists ides, index, table, grouped. cbn [fst snd]. split_and!; [done..| | | |].
    + by rewrite !dict_get_set.
    + by rewrite !dict_get_set.
    + by rewrite dict_get_set_eq.
    + intros path Hpath. rewrite !not_elem_of_cons in Hpath.
      destruct Hpath as (? & ? & ? & _). by rewrite !dict_get_set_ne.
  - exfalso. unfold _construct_ide_table in Htable. by rewrite Hmatrix in Htable.
Qed.

(** X10.  Running [main] again on the same fetch changes no file and ends
    as the first run did. *)
Theorem main_is_idempotent products files :
  main Version lt products (main Version lt products files).1
  = main Version lt products files.
Proof.
  destruct (main_steps products files)
    as (ides & index & grouped & Hides & Hknown & Hindex & Hgrouped & Hfirst).
  destruct (main_steps products (main Version lt products files).1)
    as (ides' & index' & grouped' & Hides' & _ & Hindex' & Hgrouped' & ->).
  rewrite Hides in Hides'. injection Hides' as <-.
  rewrite Hindex in Hindex'. injection Hindex' as <-.
  rewrite Hgrouped in Hgrouped'. injection Hgrouped' as <-.
  rewrite Hfirst.
  destruct (_construct_ide_table Version lt ides) as [table|e]; simpl.
  - f_equal.
    rewrite (dict_set_same "all-product-codes.json") by (by rewrite !dict_get_set).
    rewrite (dict_set_same "build-numbers.md") by (by rewrite !dict_get_set).
    by rewrite dict_set_set.
  - f_equal. by rewrite dict_set_set.
Qed.
End MainFacts.

Lemma main_fails_only_on_a_rejected_version_witness :
  (main packaging.parse packaging.lt latest_release []).2
    = Some (InvalidVersion "latest") ∧
  ∃ v index,
    InvalidVersion "latest" = InvalidVersion v ∧ packaging.parse v = None ∧
    _update_all_codes latest_release = Ok index ∧
    (main packaging.parse packaging.lt latest_release []).1
      = dict_set "all-product-codes.json" (JsonFile index) [].
Proof.
  split; [reflexivity|].
  destruct (main_fails_only_on_a_rejected_version packaging.parse packaging.lt
              latest_release [] (InvalidVersion "latest") eq_refl)
    as (v & index & Hv & Hrejected & _ & Hindex & Hfiles & _).
  exists v, index. split; [exact Hv|]. split; [exact Hrejected|].
  split; [exact Hindex|exact Hfiles].
Defined.

Lemma main_writes_three_files_witness :
  Forall (fun item : IDECode.t * Release =>
            is_Some (build item.2) → is_Some (packaging.parse (version item.2)))
         (items_of unknown_with_release) ∧
  (main packaging.parse packaging.lt unknown_with_release []).2 = None ∧
  ∃ table,
    dict_get "build-numbers.md"
      (main packaging.parse packaging.lt unknown_with_release []).1
    = Some (MarkdownFile table).
Proof.
  assert (Forall (fun item : IDECode.t * Release =>
            is_Some (build item.2) → is_Some (packaging.parse (version item.2)))
         (items_of unknown_with_release)) as Hparse by each_release.
  split; [exact Hparse|].
  destruct (main_writes_three_files packaging.parse packaging.lt
              unknown_with_release [] Hparse)
    as (ides & index & table & grouped & _ & _ & _ & _ & Hend & _ & Htable & _).
  split; [exact Hend|]. exists table. exact Htable.
Defined.

(** * What the grouped view keeps *)

Lemma fmap_inj_on {A B : Type} (f : A → B) (l1 l2 : list A) :
  (∀ x y, x ∈ l1 → y ∈ l2 → f x = f y → x = y) →
  f <$> l1 = f <$> l2 → l1 = l2.
Proof.
  revert l2. induction l1 as [|x l1 IH]; intros [|y l2] Hinj; csimpl; try done.
  intros [= Hxy Hrest]. f_equal.
  - apply Hinj; [apply list_elem_of_here..|done].
  - apply IH; [|done]. intros x' y' Hx' Hy'.
    apply Hinj; by apply list_elem_of_further.
Qed.

Lemma releases_of_in_range member ides :
  Forall (fun ide => Forall (fun r => datetime.in_range (date r)) (releases ide)) ides →
  Forall (fun r => datetime.in_range (date r)) (releases_of member ides).
Proof.
  intros Hrange. apply Forall_forall. intros r (ide & Hr & Hide)%list_elem_of_bind.
  apply list_elem_of_filter in Hide as [_ Hide].
  rewrite Forall_forall in Hrange. specialize (Hrange _ Hide).
  rewrite Forall_forall in Hrange. by apply Hrange.
Qed.

(** X11.  The grouped view loses nothing: two lists of products with known
    codes and dates in the range of [datetime.date] that give the same
    grouped view have, for every identity, the same releases in the same
    order. *)
Theorem grouped_view_determines_the_releases ides1 ides2 :
  Forall known ides1 → Forall known ides2 →
  Forall (fun ide => Forall (fun r => datetime.in_range (date r)) (releases ide)) ides1 →
  Forall (fun ide => Forall (fun r => datetime.in_range (date r)) (releases ide)) ides2 →
  _update_json ides1 = _update_json ides2 →
  ∀ member, releases_of member ides1 = releases_of member ides2.
Proof.
  intros Hknown1 Hknown2 Hrange1 Hrange2 Hsame member.
  destruct (update_json_Ok ides1 _ (releases_known ides1 Hknown1))
    as (members1 & Hm1 & _ & Hget1).
  destruct (update_json_Ok ides2 _ (releases_known ides2 Hknown2))
    as (members2 & Hm2 & _ & Hget2).
  rewrite Hm1, Hm2 in Hsame. injection Hsame as <-.
  specialize (Hget1 (IDECode.name member)). specialize (Hget2 (IDECode.name member)).
  rewrite Hget1, !grouped_items_of in Hget2 by done.
  apply (fmap_inj_on release_as_json).
  - intros r1 r2 Hr1 Hr2. apply release_as_json_inj.
    + pose proof (releases_of_in_range member ides1 Hrange1) as Hall.
      rewrite Forall_forall in Hall. by apply Hall.
    + pose proof (releases_of_in_range member ides2 Hrange2) as Hall.
      rewrite Forall_forall in Hall. by apply Hall.
  - destruct (release_as_json <$> releases_of member ides1),
      (release_as_json <$> releases_of member ides2); try done.
    injection Hget2 as Hhead Htail. by rewrite Hhead, Htail.
Qed.

Lemma grouped_view_determines_the_releases_witness :
  Forall known spec_example ∧ Forall known spec_example_regrouped ∧
  _update_json spec_example = _update_json spec_example_regrouped ∧
  ∀ member,
    releases_of member spec_example = releases_of member spec_example_regrouped.
Proof.
  assert (Forall known spec_example) as Hknown1 by all_known.
  assert (Forall known spec_example_regrouped) as Hknown2 by all_known.
  split; [exact Hknown1|]. split; [exact Hknown2|]. split; [reflexivity|].
  apply (grouped_view_determines_the_releases spec_example spec_example_regrouped
           Hknown1 Hknown2); [| |reflexivity].
  - repeat (apply Forall_cons_2;
            [repeat (apply Forall_cons_2; [vm_compute; intuition discriminate|]);
             apply Forall_nil_2|]); apply Forall_nil_2.
  - repeat (apply Forall_cons_2;
            [repeat (apply Forall_cons_2; [vm_compute; intuition discriminate|]);
             apply Forall_nil_2|]); apply Forall_nil_2.
Defined.

(** * The index and the order of the fetch *)

Lemma N_of_ascii_inj a b : N_of_ascii a = N_of_ascii b → a = b.
Proof.
  intros Heq. by rewrite <- (ascii_N_embedding a), Heq, ascii_N_embedding.
Qed.

Lemma string_compare_le_trans a b c :
  (a ?= b)%string ≠ Gt → (b ?= c)%string ≠ Gt → (a ?= c)%string ≠ Gt.
Proof.
  revert b c. induction a as [|x a IH]; intros [|y b] [|z c]; simpl; try done.
  unfold Ascii.compare.
  destruct (N.compare_spec (N_of_ascii x) (N_of_ascii y)) as [Hxy|Hxy|Hxy],
    (N.compare_spec (N_of_ascii y) (N_of_ascii z)) as [Hyz|Hyz|Hyz],
    (N.compare_spec (N_of_ascii x) (N_of_ascii z)) as [Hxz|Hxz|Hxz];
    try done; try lia.
  apply IH.
Qed.

Lemma string_not_ltb a b : (b <? a)%string = false ↔ (a ?= b)%string ≠ Gt.
Proof.
  unfold String.ltb. rewrite (String.compare_antisym a b).
  destruct (b ?= a)%string; simpl; split; done.
Qed.

Lemma string_not_ltb_trans a b c :
  (b <? a)%string = false → (c <? b)%string = false → (c <? a)%string = false.
Proof. rewrite !string_not_ltb. apply string_compare_le_trans. Qed.

Lemma string_not_ltb_antisym a b :
  (b <? a)%string = false → (a <? b)%string = false → a = b.
Proof.
  intros Hab%string_ltb_leb Hba%string_ltb_leb. by apply String.leb_antisym.
Qed.

Lemma insort_fmap {A B K : Type} (before : K → K → bool) (f : A → B)
    (x : K * A) (s : list (K * A)) :
  insort before (prod_map id f x) (prod_map id f <$> s)
  = prod_map id f <$> insort before x s.
Proof.
  destruct x as [kx x]. induction s as [|[ky y] s IH]; [done|].
  cbn [fmap list_fmap insort prod_map fst snd id].
  destruct (before ky kx); [|done].
  cbn [fmap list_fmap]. f_equal. apply IH.
Qed.

Lemma sort_keyed_fmap {A B K : Type} (before : K → K → bool) (f : A → B)
    (l : list (K * A)) :
  sort_keyed before (prod_map id f <$> l) = prod_map id f <$> sort_keyed before l.
Proof.
  induction l as [|x l IH]; [done|].
  cbn [fmap list_fmap sort_keyed foldr]. unfold sort_keyed in IH.
  rewrite IH. apply insort_fmap.
Qed.

(** The index, with the sort on the products themselves. *)
Lemma update_all_codes_closed products :
  _update_all_codes products =
  Ok (JArray (code_and_name
              <$> (sort_keyed String.ltb
                     ((fun product => (code product, product)) <$> products)).*2)).
Proof.
  unfold _update_all_codes, sorted.
  set (entry := fun product => [("code", code product); ("name", name product)]).
  assert (traverse (fun product : list (string * string) => dict_getitem "code" product)
            (entry <$> products) = Ok (code <$> products)) as ->.
  { induction products as [|product products IH]; [done|]. csimpl. by rewrite IH. }
  simpl.
  assert (zip (code <$> products) (entry <$> products) =
          prod_map id entry <$> ((fun product => (code product, product)) <$> products))
    as ->.
  { induction products as [|product products IH]; [done|]. csimpl. by rewrite IH. }
  rewrite sort_keyed_fmap. do 2 f_equal.
  rewrite <- !list_fmap_compose. apply list_fmap_ext. by intros i [k product] _.
Qed.

Lemma NoDup_fmap_elem {A B : Type} (f : A → B) (l : list A) x y :
  NoDup (f <$> l) → x ∈ l → y ∈ l → f x = f y → x = y.
Proof.
  induction l as [|z l IH]; csimpl.
  - intros _ Hx. by apply elem_of_nil in Hx.
  - intros [Hz Hnd]%NoDup_cons [->|Hx]%elem_of_cons [->|Hy]%elem_of_cons Heq.
    + done.
    + exfalso. apply Hz. rewrite Heq. by apply list_elem_of_fmap_2.
    + exfalso. apply Hz. rewrite <- Heq. by apply list_elem_of_fmap_2.
    + by apply IH.
Qed.

(** X12.  When the fetched codes are pairwise distinct, the index does not
    depend on the order in which the products were fetched. *)
Theorem index_ignores_the_fetch_order products1 products2 :
  products1 ≡ₚ products2 → NoDup (code <$> products1) →
  _update_all_codes products1 = _update_all_codes products2.
Proof.
  intros Hperm Hnd. rewrite !update_all_codes_closed. do 4 f_equal.
  set (decorate := fun product : Product => (code product, product)).
  set (R := fun p q : string * Product => (q.1 <? p.1)%string = false).
  assert (Transitive R) as Htrans.
  { intros p q r. apply string_not_ltb_trans. }
  apply (Sorted_unique_strong R).
  - intros x1 x2 Hx1 Hx2 H12 H21.
    rewrite sort_keyed_perm in Hx1, Hx2. rewrite <- Hperm in Hx2.
    apply list_elem_of_fmap in Hx1 as (q1 & -> & Hq1).
    apply list_elem_of_fmap in Hx2 as (q2 & -> & Hq2).
    unfold decorate. f_equal.
    + by apply string_not_ltb_antisym.
    + apply (NoDup_fmap_elem code products1); [done..|].
      by apply string_not_ltb_antisym.
  - apply sort_keyed_Sorted, string_ltb_asym.
  - apply sort_keyed_Sorted, string_ltb_asym.
  - rewrite !sort_keyed_perm. by rewrite Hperm.
Qed.

Lemma index_ignores_the_fetch_order_witness :
  fetched ≡ₚ fetched_reordered ∧ NoDup (code <$> fetched) ∧
  _update_all_codes fetched = _update_all_codes fetched_reordered.
Proof.
  assert (fetched ≡ₚ fetched_reordered) as Hperm.
  { unfold fetched, fetched_reordered.
    etrans; [apply Permutation_skip, Permutation_swap|]. apply Permutation_swap. }
  assert (NoDup (code <$> fetched)) as Hnd.
  { apply (bool_decide_unpack _). vm_compute. exact I. }
  split; [exact Hperm|]. split; [exact Hnd|].
  exact (index_ignores_the_fetch_order fetched fetched_reordered Hperm Hnd).
Defined.

(** * The legend *)

Lemma has_space_app a b : has_space (a +:+ b) = has_space a || has_space b.
Proof.
  induction a as [|x a IH]; simpl; [done|]. by rewrite IH, orb_assoc.
Qed.

Lemma split_from_words s :
  has_space (split_from s).1 = false ∧
  Forall (fun word => word ≠ "" ∧ has_space word = false) (split_from s).2.
Proof.
  induction s as [|a s [IHword IHwords]]; simpl; [by split|].
  destruct (split_from s) as [word words]. simpl in *.
  destruct (isspace a) eqn:Ha; simpl.
  - split; [done|]. destruct word; [done|]. by constructor.
  - by rewrite Ha, IHword.
Qed.

Lemma str_split_words s :
  Forall (fun word => word ≠ "" ∧ has_space word = false) (str_split s).
Proof.
  unfold str_split. pose proof (split_from_words s) as [Hword Hwords].
  destruct (split_from s) as [word words]. simpl in *.
  destruct word; [done|]. by constructor.
Qed.

Lemma str_join_no_space sep words :
  has_space sep = false → Forall (fun word => has_space word = false) words →
  has_space (str_join sep words) = false.
Proof.
  intros Hsep. induction 1 as [|word words Hword Hwords IH]; [done|].
  simpl. destruct words as [|word' words]; [done|].
  by rewrite !has_space_app, Hword, Hsep, IH.
Qed.

Lemma split_from_no_space s : has_space s = false → split_from s = (s, []).
Proof.
  induction s as [|a s IH]; simpl; [done|].
  intros [Ha Hs]%orb_false_elim. by rewrite (IH Hs), Ha.
Qed.

(** X13.  Joining the words of a string with [&nbsp;] leaves no whitespace
    in it, and a string without whitespace comes back as it is; so no item
    of the legend has whitespace, whatever the code and the member. *)
Theorem legend_items_have_no_whitespace :
  (∀ s, has_space (str_join "&nbsp;" (str_split s)) = false) ∧
  (∀ s, has_space s = false → str_join "&nbsp;" (str_split s) = s) ∧
  (∀ code member, has_space (legend_item code member) = false).
Proof.
  assert (∀ s, has_space (str_join "&nbsp;" (str_split s)) = false) as Hnone.
  { intros s. apply str_join_no_space; [done|].
    eapply Forall_impl; [apply str_split_words|]. by intros word [_ Hword]. }
  split_and!; [done| |].
  - intros s Hs. unfold str_split. rewrite (split_from_no_space s Hs).
    by destruct s.
  - intros code member. apply Hnone.
Qed.

(** The legend of the thirteen members. *)
Example table_notes_value :
  _table_notes =
  "<b>CL</b>:&nbsp;CLion | <b>GO</b>:&nbsp;GoLand | <b>IIC</b>:&nbsp;IntelliJ&nbsp;IDEA&nbsp;Community&nbsp;Edition | <b>IIU</b>:&nbsp;IntelliJ&nbsp;IDEA&nbsp;Ultimate | <b>PCC</b>:&nbsp;PyCharm&nbsp;Community&nbsp;Edition | <b>PCP</b>:&nbsp;PyCharm&nbsp;Professional&nbsp;Edition | <b>PS</b>:&nbsp;PhpStorm | <b>RC</b>:&nbsp;ReSharper&nbsp;C++ | <b>RD</b>:&nbsp;Rider | <b>RM</b>:&nbsp;RubyMine | <b>RR</b>:&nbsp;RustRover | <b>RS</b>:&nbsp;ReSharper | <b>WS</b>:&nbsp;WebStorm".
Proof. reflexivity. Qed.

(** * The matrix and the order of the input *)

Section InputOrder.
Context {Key : Type} (Version : string → option Key) (lt : Key → Key → bool).

(** A successful run has parsed the version of every release with a build
    identifier. *)
Lemma map_version_Ok_parses ides items table :
  IDEList.releases ides = iter items →
  _map_version_to_build_numbers Version lt ides = Ok table →
  Forall (fun item : IDECode.t * Release =>
            is_Some (build item.2) → is_Some (Version (version item.2))) items.
Proof.
  intros Hiter Htable. apply Forall_forall. intros [member release] Hin [number Hb].
  simpl in *.
  destruct (last_build_present items member release number Hin Hb) as [found Hfound].
  pose proof (map_version_cell Version lt ides items table (version release) member
                Hiter Htable) as Hcell.
  rewrite Hfound in Hcell.
  assert (version release ∈ table.*1) as Hrow by (apply (cell_row _ _ member); by eauto).
  apply map_version_Ok in Htable as (unsorted & _ & _ & Hsort & Hperm & _).
  unfold sorted in Hsort.
  destruct (traverse (version_key Version) unsorted) as [keys|] eqn:Hkeys; [|done].
  apply traverse_Ok in Hkeys. rewrite Hperm in Hrow.
  apply list_elem_of_fmap in Hrow as ([v row] & Hv & Hrow). simpl in Hv. subst v.
  apply list_elem_of_lookup in Hrow as [i Hi].
  destruct (Forall2_lookup_l _ _ _ _ _ Hkeys Hi) as (key & _ & Hkey).
  apply version_key_Ok in Hkey. by exists key.
Qed.

Lemma last_build_perm items1 items2 v member :
  items1 ≡ₚ items2 →
  NoDup ((fun item : IDECode.t * Release => (item.1, version item.2))
         <$> filter (fun item : IDECode.t * Release => is_Some (build item.2)) items1) →
  last_build items1 v member = last_build items2 v member.
Proof.
  intros Hperm Hnd.
  destruct (last_build items1 v member) as [b1|] eqn:H1,
    (last_build items2 v member) as [b2|] eqn:H2; [| | |done].
  - apply last_build_Some in H1 as (r1 & Hr1 & Hv1 & Hb1).
    apply last_build_Some in H2 as (r2 & Hr2 & Hv2 & Hb2).
    rewrite <- Hperm in Hr2.
    assert ((member, r1) = (member, r2)) as [= ->]; [|congruence].
    apply (NoDup_fmap_elem _ _ _ _ Hnd).
    + apply list_elem_of_filter. split; [by simpl; eauto|done].
    + apply list_elem_of_filter. split; [by simpl; eauto|done].
    + simpl. congruence.
  - apply last_build_Some in H1 as (r1 & Hr1 & <- & Hb1). rewrite Hperm in Hr1.
    destruct (last_build_present items2 member r1 b1 Hr1 Hb1) as [? Hsome]. congruence.
  - apply last_build_Some in H2 as (r2 & Hr2 & <- & Hb2). rewrite <- Hperm in Hr2.
    destruct (last_build_present items1 member r2 b2 Hr2 Hb2) as [? Hsome]. congruence.
Qed.

Lemma matrix_keys table v :
  matrix_invariant table →
  v ∈ table.*1 ↔ ∃ member, is_Some (cell table v member).
Proof.
  intros Hinv. split; [by apply row_has_cell|]. intros [member Hcell].
  by apply (cell_row _ _ member).
Qed.

(** X14.  When no identity has two releases with a build identifier for
    one version, the matrix does not depend on the order of the input:
    the same releases in another order give a matrix with the same cells
    and the same row keys, and the run succeeds on the one when it does on
    the other. *)
Theorem matrix_ignores_the_input_order ides1 ides2 items1 items2 table1 :
  IDEList.releases ides1 = iter items1 → IDEList.releases ides2 = iter items2 →
  items1 ≡ₚ items2 →
  NoDup ((fun item : IDECode.t * Release => (item.1, version item.2))
         <$> filter (fun item : IDECode.t * Release => is_Some (build item.2)) items1) →
  _map_version_to_build_numbers Version lt ides1 = Ok table1 →
  ∃ table2,
    _map_version_to_build_numbers Version lt ides2 = Ok table2 ∧
    (∀ v member, cell table1 v member = cell table2 v member) ∧
    table1.*1 ≡ₚ table2.*1.
Proof.
  intros Hiter1 Hiter2 Hperm Hnd Htable1.
  pose proof (map_version_Ok_parses ides1 items1 table1 Hiter1 Htable1) as Hparse.
  rewrite Hperm in Hparse.
  destruct (map_version_total Version lt ides2 items2 Hiter2 Hparse) as [table2 Htable2].
  exists table2. split; [done|].
  assert (∀ v member, cell table1 v member = cell table2 v member) as Hcells.
  { intros v member.
    rewrite (map_version_cell Version lt ides1 items1 table1 v member Hiter1 Htable1).
    rewrite (map_version_cell Version lt ides2 items2 table2 v member Hiter2 Htable2).
    by rewrite (last_build_perm items1 items2 v member Hperm Hnd). }
  split; [done|].
  apply map_version_Ok in Htable1 as (unsorted1 & _ & _ & _ & Hperm1 & Hinv1).
  apply map_version_Ok in Htable2 as (unsorted2 & _ & _ & _ & Hperm2 & Hinv2).
  apply (matrix_invariant_perm _ table1) in Hinv1; [|done].
  apply (matrix_invariant_perm _ table2) in Hinv2; [|done].
  apply NoDup_Permutation; [apply Hinv1|apply Hinv2|].
  intros v. rewrite (matrix_keys table1 v Hinv1), (matrix_keys table2 v Hinv2).
  by setoid_rewrite Hcells.
Qed.
End InputOrder.

Lemma matrix_ignores_the_input_order_witness :
  IDEList.releases spec_example = iter (items_of spec_example) ∧
  IDEList.releases spec_example_regrouped = iter (items_of spec_example_regrouped) ∧
  items_of spec_example ≡ₚ items_of spec_example_regrouped ∧
  ∃ table2,
    _map_version_to_build_numbers packaging.parse packaging.lt spec_example_regrouped
      = Ok table2 ∧
    (∀ v member,
       cell [("2024.1", [(IDECode.IIU, Some "241.1")]);
             ("2023.3", [(IDECode.IIU, Some "233.100")])] v member
       = cell table2 v member) ∧
    ["2024.1"; "2023.3"] ≡ₚ table2.*1.
Proof.
  assert (items_of spec_example ≡ₚ items_of spec_example_regrouped) as Hperm.
  { apply Permutation_skip, Permutation_swap. }
  split; [reflexivity|]. split; [reflexivity|]. split; [exact Hperm|].
  apply (matrix_ignores_the_input_order packaging.parse packaging.lt
           spec_example spec_example_regrouped
           (items_of spec_example) (items_of spec_example_regrouped)
           [("2024.1", [(IDECode.IIU, Some "241.1")]);
            ("2023.3", [(IDECode.IIU, Some "233.100")])]);
    [reflexivity|reflexivity|exact Hperm| |reflexivity].
  apply (bool_decide_unpack _). vm_compute. exact I.
Defined.
